(** * A binary heap over Go slices: model and verification

    The program is package [heap] (heap.go): a generic binary heap
    [Heap[T]] holding a slice [elements] and a three-way comparator
    [compare], with [Insert]/[Remove] and three derived functions
    ([NuevoMonticuloMaxDesdeArreglo], [EnesimoMaximo],
    [CombinarMonticulos]).

    The embedding has two layers.
    - The two loops [upHeap] and [downHeap] are functions on the element
      sequence seen through the slice ([upHeap_elems], [downHeap_elems]);
      an index outside the slice is a run-time panic ([None]).
    - Everything that goes through a pointer lives in a store: backing
      arrays and [Heap] structs are allocated at locations, a slice is a
      window on a backing array, and the methods are computations in a
      state-and-panic monad.  Aliasing is therefore visible: a function that
      wrote through the caller's slice would change the caller's array. *)

From Equations Require Import Equations.
From stdpp Require Import gmap list sorting strings.
From Stdlib Require Import ZArith Lia.

Local Open Scope Z_scope.

(** * Element types *)

(** Every Go type has a zero value ([var element T]). *)
Class Zero (T : Type) := zero : T.

(** The constraint [types.Ordered]: types with the built-in [<].  The laws
    are those of a strict total order, which hold for Go's integers and
    strings (floating-point NaN is outside the model). *)
Class Ordered (T : Type) := {
  less : T -> T -> bool;
  less_irrefl : forall a, less a a = false;
  less_trans : forall a b c, less a b = true -> less b c = true -> less a c = true;
  less_total : forall a b, less a b = false -> less b a = false -> a = b
}.

(** Modelled from the spec: [utils.Compare] of the imported package
    [data-structures/utils] is not part of this repository; the struct's
    comment and the spec give it as -1 if a < b, 0 if a == b, 1 if a > b. *)
Definition Compare {T} `{Ordered T} (a b : T) : Z :=
  if less a b then -1 else if less b a then 1 else 0.

(** Go's [int], wide enough that no value of the program wraps: elements
    are only compared, never added. *)
#[global] Instance Z_zero : Zero Z := 0.

#[global] Program Instance Z_ordered : Ordered Z := {| less := Z.ltb |}.
Next Obligation. intros a. apply Z.ltb_irrefl. Qed.
Next Obligation. intros a b c. rewrite !Z.ltb_lt. lia. Qed.
Next Obligation. intros a b. rewrite !Z.ltb_ge. lia. Qed.

(** Go's [error]: an error value carries its message, [nil] is [None]. *)
Definition error : Type := string.

(** [errors.New] *)
Definition errors_New (msg : string) : error := msg.

(** The two error kinds of the spec, by the message the code gives them. *)
Definition EmptyContainer : error := errors_New "heap vacío".
Definition InvalidRank : error := errors_New "n debe estar en el rango de 1 a M".

(** * The loops, on the element sequence *)

(** Indices are natural numbers: an index of the program is at least 0
    when it is used, and a slice is far too short for [2*i + 2] to leave
    the range of [int]. *)

Section elems.
Context {T : Type} (compare : T -> T -> Z).

(** [es[i], es[j] = es[j], es[i]]: both reads are bounds-checked before
    either write. *)
Definition swap (es : list T) (i j : nat) : option (list T) :=
  x ← es !! i; y ← es !! j; Some (<[j := x]> (<[i := y]> es)).

Lemma swap_length es i j es' : swap es i j = Some es' -> length es' = length es.
Proof.
  unfold swap. intros Hs.
  destruct (es !! i); simpl in Hs; [|discriminate].
  destruct (es !! j); simpl in Hs; [|discriminate].
  injection Hs as <-. now rewrite !length_insert.
Qed.

(** [upHeap]: the loop [for i > 0 { ... }]. The parent index
    [(i - 1) / 2] is smaller than [i], which is the termination
    argument. *)
Equations? upHeap_elems (es : list T) (i : nat) : option (list T) by wf i lt :=
  upHeap_elems es i with decide (0 < i)%nat := {
    | left Hi =>
        x ← es !! i;
        p ← es !! ((i - 1) / 2)%nat;
        if compare x p >? 0 then Some es
        else es' ← swap es i ((i - 1) / 2)%nat;
             upHeap_elems es' ((i - 1) / 2)%nat
    | right _ => Some es }.
Proof.
  assert ((i - 1) / 2 <= i - 1)%nat by (apply Nat.Div0.div_le_upper_bound; lia).
  lia.
Qed.

(** The first half of [downHeap]'s body: the index, among [i] and its
    children inside the slice, that the loop moves to. [&&] is
    short-circuit, so an element is read only after its bound check. *)
Definition smallest_of (es : list T) (i : nat) : option nat :=
  let left := (2 * i + 1)%nat in
  let right := (2 * i + 2)%nat in
  smallest ←
    (if (left <? length es)%nat then
       l ← es !! left; s ← es !! i;
       Some (if compare l s <? 0 then left else i)
     else Some i);
  if (right <? length es)%nat then
    r ← es !! right; s ← es !! smallest;
    Some (if compare r s <? 0 then right else smallest)
  else Some smallest.

Lemma smallest_of_range es i s :
  smallest_of es i = Some s -> s = i \/ (i < s < length es)%nat.
Proof.
  unfold smallest_of. intros Hs.
  destruct (Nat.ltb_spec (2 * i + 1) (length es)) as [Hl|Hl];
    destruct (Nat.ltb_spec (2 * i + 2) (length es)) as [Hr|Hr]; simpl in Hs;
    repeat match type of Hs with
      | context [?l !! ?k] => destruct (l !! k); simpl in Hs; [|discriminate]
      | context [if ?b then _ else _] => destruct b; simpl in Hs
      end;
    injection Hs as <-; lia.
Qed.

(** [downHeap]: the loop [for { ... }], left through [break] when
    [smallest == i]. Each turn moves to a larger index inside the slice. *)
Equations? downHeap_elems (es : list T) (i : nat) : option (list T)
  by wf (length es - i)%nat lt :=
  downHeap_elems es i with Logic.inspect (smallest_of es i) := {
    | exist _ None _ => None
    | exist _ (Some smallest) Hsm with decide (smallest = i) := {
        | left _ => Some es
        | right Hne with Logic.inspect (swap es i smallest) := {
            | exist _ None _ => None
            | exist _ (Some es') Hsw => downHeap_elems es' smallest } } }.
Proof.
  apply swap_length in Hsw. apply smallest_of_range in Hsm. lia.
Qed.

End elems.

(** * The store *)

(** A location names a backing array or a [Heap] struct. *)
Definition loc : Type := positive.

(** A slice value: a window of [len] elements starting at offset [off] of the
    backing array at [base]. Its capacity is what is left of the array
    after [off]. *)
Record slice : Type := Slice { base : loc; off : nat; len : nat }.

(** [type Heap[T any] struct { elements []T; compare func(a T, b T) int }] *)
Record Heap (T : Type) : Type := mkHeap {
  elements : slice;
  compare : T -> T -> Z
}.
Arguments mkHeap {T} _ _.
Arguments elements {T} _.
Arguments compare {T} _ _ _.

Record mem (T : Type) : Type := Mem {
  arrays : gmap loc (list T);
  structs : gmap loc (Heap T)
}.
Arguments Mem {T} _ _.
Arguments arrays {T} _.
Arguments structs {T} _.

(** [append] grows a full slice into a new array; how much room the new
    array has is the runtime's choice and no result depends on it. *)
Class Runtime := growcap : nat -> nat.

(** Computations: a state transformer that may panic ([None]). *)
Definition M (T A : Type) : Type := mem T -> option (A * mem T).

#[global] Instance M_ret {T} : MRet (M T) := fun A a σ => Some (a, σ).
#[global] Instance M_bind {T} : MBind (M T) := fun A B f c σ =>
  match c σ with
  | Some (a, σ') => f a σ'
  | None => None
  end.

Section store.
Context {T : Type} {zero_T : Zero T} {rt : Runtime}.

Definition panic {A} : M T A := fun _ => None.

Definition lift {A} (o : option A) : M T A := fun σ =>
  match o with Some a => Some (a, σ) | None => None end.

(** ** Pointers to structs *)

Definition load (p : loc) : M T (Heap T) := fun σ =>
  lift (structs σ !! p) σ.

Definition store (p : loc) (h : Heap T) : M T unit := fun σ =>
  match structs σ !! p with
  | Some _ => Some (tt, Mem (arrays σ) (<[p := h]> (structs σ)))
  | None => None
  end.

(** [&Heap[T]{...}] *)
Definition new (h : Heap T) : M T loc := fun σ =>
  let p := fresh (dom (structs σ)) in
  Some (p, Mem (arrays σ) (<[p := h]> (structs σ))).

(** ** Backing arrays *)

Definition read_array (b : loc) : M T (list T) := fun σ =>
  lift (arrays σ !! b) σ.

Definition write_array (b : loc) (a : list T) : M T unit := fun σ =>
  match arrays σ !! b with
  | Some _ => Some (tt, Mem (<[b := a]> (arrays σ)) (structs σ))
  | None => None
  end.

Definition alloc_array (a : list T) : M T loc := fun σ =>
  let b := fresh (dom (arrays σ)) in
  Some (b, Mem (<[b := a]> (arrays σ)) (structs σ)).

(** ** Slices *)

(** [make([]T, n)] *)
Definition make (n : nat) : M T slice :=
  b ← alloc_array (replicate n zero); mret (Slice b 0 n).

(** [cap(s)] *)
Definition cap (s : slice) : M T nat :=
  a ← read_array (base s); mret (length a - off s)%nat.

(** [s[i]] as a value *)
Definition index_get (s : slice) (i : nat) : M T T :=
  if (i <? len s)%nat then
    a ← read_array (base s); lift (a !! (off s + i)%nat)
  else panic.

(** [s[i] = x] *)
Definition index_set (s : slice) (i : nat) (x : T) : M T unit :=
  if (i <? len s)%nat then
    a ← read_array (base s);
    if (off s + i <? length a)%nat
    then write_array (base s) (<[(off s + i)%nat := x]> a)
    else panic
  else panic.

(** [s[:k]] *)
Definition reslice (s : slice) (k : nat) : M T slice :=
  c ← cap s;
  if (k <=? c)%nat then mret (Slice (base s) (off s) k) else panic.

(** The elements of [s], in order. *)
Definition read_slice (s : slice) : M T (list T) :=
  a ← read_array (base s);
  if (off s + len s <=? length a)%nat
  then mret (take (len s) (drop (off s) a))
  else panic.

(** Overwrite the elements of [s] with [es] (of the same length). *)
Definition write_slice (s : slice) (es : list T) : M T unit :=
  a ← read_array (base s);
  write_array (base s) (take (off s) a ++ es ++ drop (off s + len s) a).

(** [append(s, x)]: in place when there is room, else into a new array
    that receives a copy of the elements. *)
Definition append (s : slice) (x : T) : M T slice :=
  c ← cap s;
  if (len s <? c)%nat then
    a ← read_array (base s);
    write_array (base s) (<[(off s + len s)%nat := x]> a);;
    mret (Slice (base s) (off s) (len s + 1))
  else
    es ← read_slice s;
    b ← alloc_array (es ++ x :: replicate (growcap c - (len s + 1)) zero);
    mret (Slice b 0 (len s + 1)).

(** [copy(dst, src)] *)
Definition copy (dst src : slice) : M T nat :=
  let n := (len dst `min` len src)%nat in
  es ← read_slice (Slice (base src) (off src) n);
  write_slice (Slice (base dst) (off dst) n) es;;
  mret n.

(** [for _, element := range s { body }]: [s] is evaluated once, each
    element is read when its turn comes. *)
Fixpoint for_indices (s : slice) (body : T -> M T unit) (idx : list nat) : M T unit :=
  match idx with
  | [] => mret tt
  | i :: rest => element ← index_get s i; body element;; for_indices s body rest
  end.

Definition for_range (s : slice) (body : T -> M T unit) : M T unit :=
  for_indices s body (seq 0 (len s)).

(** * The heap *)

(** [NewGenericHeap] *)
Definition NewGenericHeap (comp : T -> T -> Z) : M T loc :=
  es ← make 0; new (mkHeap es comp).

(** [Size] *)
Definition Size (m : loc) : M T nat :=
  h ← load m; mret (len (elements h)).

(** [upHeap]: the loop runs on the elements of [m.elements]; nothing else
    is read or written. *)
Definition upHeap (m : loc) (i : nat) : M T unit :=
  h ← load m;
  es ← read_slice (elements h);
  es' ← lift (upHeap_elems (compare h) es i);
  write_slice (elements h) es'.

(** [downHeap] *)
Definition downHeap (m : loc) (i : nat) : M T unit :=
  h ← load m;
  es ← read_slice (elements h);
  es' ← lift (downHeap_elems (compare h) es i);
  write_slice (elements h) es'.

(** [Insert] *)
Definition Insert (m : loc) (element : T) : M T unit :=
  h ← load m;
  s ← append (elements h) element;
  store m (mkHeap s (compare h));;
  h ← load m;
  upHeap m (len (elements h) - 1).

(** [Remove] *)
Definition Remove (m : loc) : M T (T * option error) :=
  n ← Size m;
  if (n =? 0)%nat then mret (zero, Some (errors_New "heap vacío"))
  else
    h ← load m;
    element ← index_get (elements h) 0;
    n ← Size m;
    last ← index_get (elements h) (n - 1);
    index_set (elements h) 0 last;;
    h ← load m;
    n ← Size m;
    s ← reslice (elements h) (n - 1);
    store m (mkHeap s (compare h));;
    downHeap m 0;;
    mret (element, None).

End store.

Section ordered.
Context {T : Type} {zero_T : Zero T} {ord_T : Ordered T} {rt : Runtime}.

(** [NewMinHeap] *)
Definition NewMinHeap : M T loc :=
  es ← make 0; new (mkHeap es Compare).

(** [NewMaxHeap] *)
Definition NewMaxHeap : M T loc :=
  let comp := fun a b : T => Compare b a in
  es ← make 0; new (mkHeap es comp).

(** [NuevoMonticuloMaxDesdeArreglo] *)
Definition NuevoMonticuloMaxDesdeArreglo (arr : slice) : M T loc :=
  heap ← NewMaxHeap;
  for_range arr (fun element => Insert heap element);;
  mret heap.

(** The loop [for i := 0; i < n; i++] of [EnesimoMaximo], with [k] turns
    left. *)
Fixpoint EnesimoMaximo_loop (copiaHeap : loc) (k : nat) (maximo : T)
  : M T (T * option error) :=
  match k with
  | O => mret (maximo, None)
  | S k' =>
      r ← Remove copiaHeap;
      match r.2 with
      | Some err => mret (r.1, Some err)
      | None => EnesimoMaximo_loop copiaHeap k' r.1
      end
  end.

(** [EnesimoMaximo]. The size is read only when [n < 1] fails ([||] is
    short-circuit). *)
Definition EnesimoMaximo (heap : loc) (n : Z) : M T (T * option error) :=
  invalid ←
    (if n <? 1 then mret true
     else size ← Size heap; mret (Z.of_nat size <? n));
  if invalid : bool
  then mret (zero, Some (errors_New "n debe estar en el rango de 1 a M"))
  else
    h ← load heap;
    es ← make (len (elements h));
    copiaHeap ← new (mkHeap es (compare h));
    c ← load copiaHeap;
    h ← load heap;
    copy (elements c) (elements h);;
    EnesimoMaximo_loop copiaHeap (Z.to_nat n) zero.

(** [CombinarMonticulos] *)
Definition CombinarMonticulos (heap1 heap2 : loc) : M T loc :=
  size ← Size heap1;
  isMax ←
    (if (1 <? size)%nat then
       h ← load heap1;
       a ← index_get (elements h) 0;
       b ← index_get (elements h) 1;
       mret (compare h a b >? 0)
     else mret false);
  combinedHeap ← (if isMax : bool then NewMaxHeap else NewMinHeap);
  h1 ← load heap1;
  for_range (elements h1) (fun element => Insert combinedHeap element);;
  h2 ← load heap2;
  for_range (elements h2) (fun element => Insert combinedHeap element);;
  mret combinedHeap.

End ordered.

(** * What the operations do to the element sequence *)

Section views.
Context {T : Type} (cmp : T -> T -> Z).

(** [Insert] seen on the element sequence: append, then [upHeap] from the
    last index. *)
Definition Insert_elems (es : list T) (x : T) : option (list T) :=
  upHeap_elems cmp (es ++ [x]) (length (es ++ [x]) - 1).

(** A successful [Remove] seen on the element sequence: the root is the
    result, the last element takes its place, the sequence loses its last
    position and [downHeap] runs from the root. *)
Definition Remove_elems (es : list T) : option (T * list T) :=
  element ← es !! 0%nat;
  last ← es !! (length es - 1)%nat;
  es' ← downHeap_elems cmp (take (length es - 1) (<[0%nat := last]> es)) 0;
  Some (element, es').

(** [k] successive removals, collecting what they return. *)
Fixpoint drain_elems (k : nat) (es : list T) : option (list T * list T) :=
  match k with
  | O => Some ([], es)
  | S k' =>
      r ← Remove_elems es;
      d ← drain_elems k' r.2;
      Some (r.1 :: d.1, d.2)
  end.

(** Successive insertions, as [for _, element := range xs] with [Insert]
    in its body does them. *)
Fixpoint Insert_all (es xs : list T) : option (list T) :=
  match xs with
  | [] => Some es
  | x :: rest => es' ← Insert_elems es x; Insert_all es' rest
  end.

(** The test at the head of [CombinarMonticulos], on the elements of its
    first argument. *)
Definition first_dominates (es : list T) : bool :=
  match es with
  | a :: b :: _ => cmp a b >? 0
  | _ => false
  end.

(** The child positions of [p] in the array-as-tree layout. *)
Definition child (p c : nat) : Prop := c = (2 * p + 1)%nat \/ c = (2 * p + 2)%nat.

(** The heap-order invariant of the data model. *)
Definition heap_ordered (es : list T) : Prop :=
  forall i c x y, child i c -> es !! i = Some x -> es !! c = Some y -> cmp x y <= 0.

(** The invariant with a hole at [i] for [upHeap]: every pair is in order
    except the one above [i], and the children of [i] are in order with
    its parent. *)
Definition up_ordered (es : list T) (i : nat) : Prop :=
  (forall p c x y, child p c -> c <> i ->
     es !! p = Some x -> es !! c = Some y -> cmp x y <= 0) /\
  (forall g c x y, child g i -> child i c ->
     es !! g = Some x -> es !! c = Some y -> cmp x y <= 0).

(** The invariant with a hole at [i] for [downHeap]: every pair is in
    order except those below [i], and the children of [i] are in order
    with its parent. *)
Definition down_ordered (es : list T) (i : nat) : Prop :=
  (forall p c x y, child p c -> p <> i ->
     es !! p = Some x -> es !! c = Some y -> cmp x y <= 0) /\
  (forall g c x y, child g i -> child i c ->
     es !! g = Some x -> es !! c = Some y -> cmp x y <= 0).

(** What the proofs need of a comparator; both follow from the laws of a
    three-way comparison of a total order (antisymmetric sign,
    transitivity). *)
Record valid_comparator : Prop := {
  cmp_flip : forall a b, 0 <= cmp a b -> cmp b a <= 0;
  cmp_trans : forall a b c, cmp a b <= 0 -> cmp b c <= 0 -> cmp a c <= 0
}.

End views.

(** * Heaps in the store *)

Section pointers.
Context {T : Type}.

(** The slice [s] is a valid window in [σ] and shows the elements [es]. *)
Definition slice_at (σ : mem T) (s : slice) (es : list T) : Prop :=
  exists a, arrays σ !! base s = Some a /\
            (off s + len s <= length a)%nat /\
            take (len s) (drop (off s) a) = es.

(** [m] points to a heap with comparator [cmp] and elements [es]. *)
Definition heap_at (σ : mem T) (m : loc) (cmp : T -> T -> Z) (es : list T) : Prop :=
  exists s, structs σ !! m = Some (mkHeap s cmp) /\ slice_at σ s es.

(** Everything allocated in [σ0] is still there, unchanged, in [σ]. *)
Definition preserved (σ0 σ : mem T) : Prop :=
  arrays σ0 ⊆ arrays σ /\ structs σ0 ⊆ structs σ.

(** The heap at [m] was created after [σ0]: neither its struct nor its
    backing array belongs to [σ0], and [σ0] is preserved. *)
Definition private (σ0 σ : mem T) (m : loc) : Prop :=
  preserved σ0 σ /\
  structs σ0 !! m = None /\
  forall h, structs σ !! m = Some h -> arrays σ0 !! base (elements h) = None.

(** The store after a write to the array at [b], or to the struct at [p]. *)
Definition set_array (b : loc) (a : list T) (σ : mem T) : mem T :=
  Mem (<[b := a]> (arrays σ)) (structs σ).

Definition set_struct (p : loc) (h : Heap T) (σ : mem T) : mem T :=
  Mem (arrays σ) (<[p := h]> (structs σ)).

End pointers.

(** The comparator [CombinarMonticulos] gives its result, from the
    comparator and the elements of its first argument. *)
Definition merged_compare {T} `{Ordered T} (cmp : T -> T -> Z) (es : list T)
  : T -> T -> Z :=
  if first_dominates cmp es then (fun a b => Compare b a) else Compare.

(** Client code: call [Remove] until [Size] is 0, at most [fuel] times,
    collecting the values returned. *)
Fixpoint RemoveUntilEmpty {T} `{Zero T} (m : loc) (fuel : nat) : M T (list T) :=
  match fuel with
  | O => mret []
  | S fuel' =>
      n ← Size m;
      if (n =? 0)%nat then mret []
      else r ← Remove m; rest ← RemoveUntilEmpty m fuel'; mret (r.1 :: rest)
  end.

(** Client code: [k] calls of [Remove], keeping every result. *)
Fixpoint Remove_times {T} `{Zero T} (m : loc) (k : nat)
  : M T (list (T * option error)) :=
  match k with
  | O => mret []
  | S k' => r ← Remove m; rest ← Remove_times m k'; mret (r :: rest)
  end.

(** A growth policy for [append], to run the model on concrete inputs:
    double the capacity, starting from one. *)
Definition doubling : Runtime := fun c => (2 * c `max` 1)%nat.

(** Client code: a sequence of calls on one heap. *)
Inductive call (T : Type) : Type :=
| CallInsert (x : T)
| CallRemove.
Arguments CallInsert {T} _.
Arguments CallRemove {T}.

Definition run_call {T} `{Zero T} `{Runtime} (m : loc) (c : call T) : M T unit :=
  match c with
  | CallInsert x => Insert m x
  | CallRemove => _ ← Remove m; mret tt
  end.

Fixpoint run_calls {T} `{Zero T} `{Runtime} (m : loc) (cs : list (call T)) : M T unit :=
  match cs with
  | [] => mret tt
  | c :: rest => run_call m c;; run_calls m rest
  end.

(** A heap was created by [ctor], then went through the calls [cs]: all
    of it ran without panic, and the elements are in heap order under the
    heap's comparator [cmp]. *)
Definition ordered_after {T} `{Zero T} `{Runtime}
    (ctor : M T loc) (cmp : T -> T -> Z) (cs : list (call T)) (σ0 : mem T) : Prop :=
  exists m σ1 σ2 es,
    ctor σ0 = Some (m, σ1) /\
    run_calls m cs σ1 = Some (tt, σ2) /\
    heap_at σ2 m cmp es /\
    heap_ordered cmp es.

(** A heap was created by [ctor] and received [xs] one at a time; calling
    [Remove] until it is empty then returns the elements arranged so that
    neighbours, and indeed any two of them in order of return, satisfy
    [inorder]. *)
Definition drains_sorted {T} `{Zero T} `{Runtime}
    (ctor : M T loc) (inorder : T -> T -> Prop) (xs : list T) (fuel : nat)
    (σ0 : mem T) : Prop :=
  exists m σ1 σ2 out σ3,
    ctor σ0 = Some (m, σ1) /\
    run_calls m (CallInsert <$> xs) σ1 = Some (tt, σ2) /\
    RemoveUntilEmpty m fuel σ2 = Some (out, σ3) /\
    Size m σ3 = Some (0%nat, σ3) /\
    out ≡ₚ xs /\
    StronglySorted inorder out.

(** The result of [EnesimoMaximo] on a heap with elements [es]: an
    [InvalidRank] error exactly when [n] is outside [1, Size()], and
    otherwise no error and the element at position [n] (counting from 1)
    of the elements arranged in priority order. *)
Definition rank_validated {T} `{Zero T}
    (σ : mem T) (m : loc) (cmp : T -> T -> Z) (es : list T) (n : Z) : Prop :=
  exists v err σ',
    EnesimoMaximo m n σ = Some ((v, err), σ') /\
    (err = Some InvalidRank <-> n < 1 \/ Z.of_nat (length es) < n) /\
    (err = None <-> 1 <= n <= Z.of_nat (length es)) /\
    (1 <= n <= Z.of_nat (length es) ->
     exists sorted, sorted ≡ₚ es /\
                    StronglySorted (fun a b => cmp a b <= 0) sorted /\
                    sorted !! (Z.to_nat n - 1)%nat = Some v).

(** The test [TestCombinarMonticulos_MaxHeapYMaxHeap] of the repository, up
    to its assertion: it returns the elements of the merged heap and the
    value [combinedHeap.compare(combinedHeap.elements[0],
    combinedHeap.elements[1])], which the test asserts to be [>= 0]. *)
Definition TestCombinarMonticulos_MaxHeapYMaxHeap `{Runtime} : M Z (list Z * Z) :=
  heap1 ← NewMaxHeap;
  heap2 ← NewMaxHeap;
  Insert heap1 7;; Insert heap1 5;; Insert heap1 3;;
  Insert heap2 6;; Insert heap2 4;; Insert heap2 2;;
  combinedHeap ← CombinarMonticulos heap1 heap2;
  c ← load combinedHeap;
  es ← read_slice (elements c);
  a ← index_get (elements c) 0;
  b ← index_get (elements c) 1;
  mret (es, compare c a b).

(** A function that is not a comparator of any order: everything is
    greater than everything. *)
Definition always_greater : Z -> Z -> Z := fun _ _ => 1.

(** The comparator of [NewMaxHeap] on integers. *)
Definition max_compare : Z -> Z -> Z := fun a b => Compare b a.

(** A store with a max-heap at 1, a min-heap at 2, an empty heap at 3, and
    an array of integers at 3, to apply the theorems to. *)
Definition demo_store : mem Z :=
  Mem {[ 1%positive := [7; 5; 3; 0];
         2%positive := [2; 4; 6];
         3%positive := [3; 1; 6; 5; 2; 4];
         4%positive := [] ]}
      {[ 1%positive := mkHeap (Slice 1%positive 0 3) (fun a b => Compare b a);
         2%positive := mkHeap (Slice 2%positive 0 3) Compare;
         3%positive := mkHeap (Slice 4%positive 0 0) Compare ]}.

(** The arguments of the [Insert] calls of a sequence, in order. *)
Definition inserted {T} (cs : list (call T)) : list T :=
  omap (fun c => match c with CallInsert x => Some x | CallRemove => None end) cs.

(** Two heaps that share neither their struct nor their backing array. *)
Definition apart {T} (σ : mem T) (m1 m2 : loc) : Prop :=
  m1 <> m2 /\
  forall h1 h2, structs σ !! m1 = Some h1 -> structs σ !! m2 = Some h2 ->
                base (elements h1) <> base (elements h2).

(** A heap made by [ctor] in [σ0] is new and empty, and whatever calls it
    receives afterwards, everything allocated in [σ0] stays as it was. *)
Definition independent_after {T} `{Zero T} `{Runtime}
    (ctor : M T loc) (cs : list (call T)) (σ0 : mem T) : Prop :=
  exists m σ1 σ2,
    ctor σ0 = Some (m, σ1) /\
    structs σ0 !! m = None /\
    Size m σ1 = Some (0%nat, σ1) /\
    run_calls m cs σ1 = Some (tt, σ2) /\
    preserved σ0 σ2.

(** A heap made by [ctor] received [xs] one at a time, and calling
    [Remove] until it was empty returned [out]. *)
Definition drains_to {T} `{Zero T} `{Runtime}
    (ctor : M T loc) (xs : list T) (fuel : nat) (σ0 : mem T) (out : list T) : Prop :=
  exists m σ1 σ2 σ3,
    ctor σ0 = Some (m, σ1) /\
    run_calls m (CallInsert <$> xs) σ1 = Some (tt, σ2) /\
    RemoveUntilEmpty m fuel σ2 = Some (out, σ3).

(** * Facts about the loops *)

Section elems_facts.
Context {T : Type} (cmp : T -> T -> Z).

Lemma upHeap_elems_eq es i :
  upHeap_elems cmp es i =
  if decide (0 < i)%nat then
    x ← es !! i;
    p ← es !! ((i - 1) / 2)%nat;
    if cmp x p >? 0 then Some es
    else es' ← swap es i ((i - 1) / 2)%nat;
         upHeap_elems cmp es' ((i - 1) / 2)%nat
  else Some es.
Proof.
  simp upHeap_elems. destruct (decide (0 < i)%nat); reflexivity.
Qed.

Lemma downHeap_elems_eq es i :
  downHeap_elems cmp es i =
  match smallest_of cmp es i with
  | None => None
  | Some smallest =>
      if decide (smallest = i) then Some es
      else match swap es i smallest with
           | None => None
           | Some es' => downHeap_elems cmp es' smallest
           end
  end.
Proof.
  simp downHeap_elems.
  destruct (Logic.inspect (smallest_of cmp es i)) as [[s|] Hs];
    (etransitivity; [|symmetry; rewrite Hs; reflexivity]);
    simp downHeap_elems; [|reflexivity].
  destruct (decide (s = i)); simp downHeap_elems; [reflexivity|].
  destruct (Logic.inspect (swap es i s)) as [[es'|] Hsw];
    (etransitivity; [|symmetry; rewrite Hsw; reflexivity]);
    simp downHeap_elems; reflexivity.
Qed.

Lemma parent_child i : (0 < i)%nat -> child ((i - 1) / 2) i.
Proof.
  intros Hi. unfold child.
  pose proof (Nat.div_mod_eq (i - 1) 2) as Hdm.
  pose proof (Nat.mod_upper_bound (i - 1) 2) as Hlt.
  lia.
Qed.

Lemma swap_Some (es : list T) i j x y :
  es !! i = Some x -> es !! j = Some y ->
  swap es i j = Some (<[j := x]> (<[i := y]> es)).
Proof. intros Hx Hy. unfold swap. now rewrite Hx, Hy. Qed.

Lemma swap_inv (es : list T) i j es' :
  swap es i j = Some es' ->
  exists x y, es !! i = Some x /\ es !! j = Some y /\
              es' = <[j := x]> (<[i := y]> es).
Proof.
  unfold swap. intros Hs.
  destruct (es !! i) as [x|]; simpl in Hs; [|discriminate].
  destruct (es !! j) as [y|]; simpl in Hs; [|discriminate].
  injection Hs as <-. eauto.
Qed.

Lemma swap_perm (es : list T) i j es' : swap es i j = Some es' -> es' ≡ₚ es.
Proof.
  intros (x & y & Hx & Hy & ->)%swap_inv.
  now apply Permutation_insert_swap.
Qed.

Lemma swap_lookup (es : list T) i j es' k :
  swap es i j = Some es' ->
  es' !! k = if decide (k = j) then es !! i
             else if decide (k = i) then es !! j else es !! k.
Proof.
  intros (x & y & Hx & Hy & ->)%swap_inv.
  apply lookup_lt_Some in Hx as Hi. apply lookup_lt_Some in Hy as Hj.
  destruct (decide (k = j)) as [->|Hkj].
  - rewrite list_lookup_insert_eq by (now rewrite length_insert). now rewrite Hx.
  - rewrite list_lookup_insert_ne by congruence.
    destruct (decide (k = i)) as [->|Hki].
    + rewrite list_lookup_insert_eq by assumption. now rewrite Hy.
    + now rewrite list_lookup_insert_ne by congruence.
Qed.

(** ** The loops finish, and only permute *)

Lemma upHeap_elems_perm i : forall es,
  (i < length es \/ i = 0)%nat ->
  exists es', upHeap_elems cmp es i = Some es' /\ es' ≡ₚ es.
Proof.
  induction i as [i IH] using lt_wf_ind. intros es Hi.
  rewrite upHeap_elems_eq. destruct (decide (0 < i)%nat) as [Hpos|Hz]; [|eauto].
  assert (i < length es)%nat as Hlt by lia.
  pose proof (parent_child i Hpos) as Hpc. unfold child in Hpc.
  set (par := ((i - 1) / 2)%nat) in *.
  destruct (lookup_lt_is_Some_2 es i Hlt) as [x Hx].
  destruct (lookup_lt_is_Some_2 es par ltac:(lia)) as [p Hp].
  rewrite Hx, Hp. simpl.
  destruct (cmp x p >? 0); [eauto|].
  rewrite (swap_Some _ _ _ _ _ Hx Hp). simpl.
  destruct (IH par ltac:(lia) (<[par := x]> (<[i := p]> es)))
    as (es' & Hes' & Hperm).
  { left. rewrite !length_insert. lia. }
  exists es'. split; [assumption|].
  rewrite Hperm. now apply Permutation_insert_swap.
Qed.

Lemma smallest_of_Some es i : exists s, smallest_of cmp es i = Some s.
Proof.
  unfold smallest_of.
  destruct (Nat.ltb_spec (2 * i + 1) (length es)) as [Hl|Hl].
  - destruct (lookup_lt_is_Some_2 es (2 * i + 1) Hl) as [l Hlk].
    destruct (lookup_lt_is_Some_2 es i ltac:(lia)) as [c Hc].
    rewrite Hlk, Hc. cbn [mbind option_bind].
    destruct (Nat.ltb_spec (2 * i + 2) (length es)) as [Hr|Hr]; [|eauto].
    destruct (lookup_lt_is_Some_2 es (2 * i + 2) Hr) as [r Hrk].
    rewrite Hrk. cbn [mbind option_bind].
    destruct (cmp l c <? 0); [rewrite Hlk | rewrite Hc]; cbn [mbind option_bind]; eauto.
  - cbn [mbind option_bind].
    destruct (Nat.ltb_spec (2 * i + 2) (length es)) as [Hr|Hr]; [lia|eauto].
Qed.

Lemma downHeap_elems_perm es i :
  exists es', downHeap_elems cmp es i = Some es' /\ es' ≡ₚ es.
Proof.
  remember (length es - i)%nat as k eqn:Hk.
  revert es i Hk. induction k as [k IH] using lt_wf_ind. intros es i Hk.
  rewrite downHeap_elems_eq.
  destruct (smallest_of_Some es i) as [s Hs]. rewrite Hs.
  destruct (decide (s = i)) as [_|Hne]; [eauto|].
  apply smallest_of_range in Hs as Hrange.
  destruct (lookup_lt_is_Some_2 es i ltac:(lia)) as [x Hx].
  destruct (lookup_lt_is_Some_2 es s ltac:(lia)) as [y Hy].
  rewrite (swap_Some _ _ _ _ _ Hx Hy).
  destruct (IH (length (<[s := x]> (<[i := y]> es)) - s)%nat
              ltac:(rewrite !length_insert; lia) _ _ eq_refl)
    as (es' & Hes' & Hperm).
  exists es'. split; [assumption|].
  rewrite Hperm. now apply Permutation_insert_swap.
Qed.

Lemma Insert_elems_perm es x :
  exists es', Insert_elems cmp es x = Some es' /\ es' ≡ₚ x :: es.
Proof.
  unfold Insert_elems.
  destruct (upHeap_elems_perm (length (es ++ [x]) - 1) (es ++ [x])) as (es' & He & Hp).
  { left. rewrite length_app. simpl. lia. }
  exists es'. split; [assumption|].
  rewrite Hp. symmetry. apply Permutation_cons_append.
Qed.

Lemma take_insert_last (e : T) es l :
  (e :: es) !! length es = Some l ->
  take (length es) (<[0%nat := l]> (e :: es)) ≡ₚ es.
Proof.
  destruct es as [|z es0 _] using rev_ind; [reflexivity|].
  rewrite length_app, Nat.add_1_r.
  change ((e :: es0 ++ [z]) !! S (length es0)) with ((es0 ++ [z]) !! length es0).
  rewrite lookup_app_r by lia. rewrite Nat.sub_diag. intros [= <-].
  change (take (S (length es0)) (<[0%nat := z]> (e :: es0 ++ [z])))
    with (z :: take (length es0) (es0 ++ [z])).
  rewrite take_app_length. apply Permutation_cons_append.
Qed.

Lemma Remove_elems_perm e es :
  exists es', Remove_elems cmp (e :: es) = Some (e, es') /\ es' ≡ₚ es.
Proof.
  unfold Remove_elems.
  replace (length (e :: es) - 1)%nat with (length es) by (simpl; lia).
  destruct (lookup_lt_is_Some_2 (e :: es) (length es) ltac:(simpl; lia)) as [l Hl].
  rewrite Hl. cbn [mbind option_bind lookup list_lookup].
  destruct (downHeap_elems_perm (take (length es) (<[0%nat := l]> (e :: es))) 0)
    as (es' & He & Hp).
  rewrite He. cbn [mbind option_bind]. exists es'. split; [reflexivity|].
  rewrite Hp. now apply take_insert_last.
Qed.

End elems_facts.

(** * The invariant *)

Section order_facts.
Context {T : Type} (cmp : T -> T -> Z) (Hcmp : valid_comparator cmp).

Lemma cmp_refl a : cmp a a <= 0.
Proof.
  destruct (Z.le_gt_cases (cmp a a) 0) as [H|H]; [exact H|].
  apply (cmp_flip cmp Hcmp). lia.
Qed.

Ltac look_through Hsw :=
  repeat match goal with
    | H : ?l !! ?k = Some _ |- _ =>
        rewrite (swap_lookup _ _ _ l k Hsw) in H
    end;
  repeat case_decide; subst.

Ltac side := solve [eassumption | unfold child in *; lia].

Lemma upHeap_elems_ordered i : forall es es',
  up_ordered cmp es i -> upHeap_elems cmp es i = Some es' -> heap_ordered cmp es'.
Proof.
  induction i as [i IH] using lt_wf_ind. intros es es' [U1 U2] Hup.
  rewrite upHeap_elems_eq in Hup. destruct (decide (0 < i)%nat) as [Hpos|Hz].
  2: { injection Hup as <-. intros q c x y Hc Hx Hy.
       eapply U1; eauto. unfold child in Hc. lia. }
  pose proof (parent_child i Hpos) as Hpc.
  assert (((i - 1) / 2) < i)%nat as Hlt by (unfold child in Hpc; lia).
  remember ((i - 1) / 2)%nat as par eqn:Hpar. clear Hpar.
  destruct (es !! i) as [x|] eqn:Hx; [|discriminate].
  destruct (es !! par) as [p|] eqn:Hp; [|discriminate].
  cbn [mbind option_bind] in Hup.
  destruct (Z.gtb_spec (cmp x p) 0) as [Hgt|Hle].
  - injection Hup as <-. intros q c a b Hc Ha Hb.
    destruct (decide (c = i)) as [->|Hci]; [|eapply U1; eauto].
    assert (q = par) as -> by (unfold child in *; lia).
    rewrite Hp in Ha. rewrite Hx in Hb. injection Ha as <-. injection Hb as <-.
    apply (cmp_flip cmp Hcmp). lia.
  - destruct (swap es i par) as [es1|] eqn:Hsw; [|discriminate].
    cbn [mbind option_bind] in Hup.
    apply (IH par Hlt es1 es'); [|exact Hup]. split.
    + intros q c a b Hc Hcp Ha Hb. look_through Hsw.
      all: try (unfold child in *; lia).
      all: rewrite ?Hx, ?Hp in *; simplify_eq.
      * assumption.
      * apply (cmp_trans cmp Hcmp _ p); [assumption|]. eapply (U1 par c); side.
      * eapply (U2 par c); side.
      * eapply (U1 q c); side.
    + intros g c a b Hg Hc Ha Hb. look_through Hsw.
      all: try (unfold child in *; lia).
      all: rewrite ?Hx, ?Hp in *; simplify_eq.
      * eapply (U1 g par); side.
      * apply (cmp_trans cmp Hcmp _ p).
        -- eapply (U1 g par); side.
        -- eapply (U1 par c); side.
Qed.

Ltac cmp_leaf :=
  solve [lia | apply cmp_refl | apply (cmp_flip cmp Hcmp); lia].

Ltac cmp_solve :=
  first [ cmp_leaf
        | match goal with
          | H : _ !! _ = Some ?m |- cmp ?a ?b <= 0 =>
              apply (cmp_trans cmp Hcmp a m b); cmp_leaf
          end ].

(** The index chosen by [downHeap]'s body holds an element that is in
    order with the one at [i] and with both children of [i]. *)
Lemma smallest_of_least es i s :
  smallest_of cmp es i = Some s ->
  (s = i \/ child i s) /\
  (forall a b, es !! s = Some a -> es !! i = Some b -> cmp a b <= 0) /\
  (forall c a b, child i c -> es !! s = Some a -> es !! c = Some b -> cmp a b <= 0).
Proof.
  unfold smallest_of, child. intros Hs.
  remember (2 * i + 1)%nat as lf eqn:Hlf. remember (2 * i + 2)%nat as rg eqn:Hrg.
  cbv zeta in Hs.
  destruct (Nat.ltb_spec lf (length es)) as [Hl|Hl].
  - destruct (es !! lf) as [l|] eqn:El; [|discriminate].
    destruct (es !! i) as [x|] eqn:Ex; [|discriminate].
    cbn [mbind option_bind] in Hs.
    destruct (Nat.ltb_spec rg (length es)) as [Hr|Hr].
    + destruct (es !! rg) as [r|] eqn:Er; [|discriminate].
      cbn [mbind option_bind] in Hs.
      destruct (Z.ltb_spec (cmp l x) 0) as [Hlx|Hlx];
        rewrite ?El, ?Ex in Hs; cbn [mbind option_bind] in Hs;
        match type of Hs with context [Z.ltb ?u 0] =>
          destruct (Z.ltb_spec u 0) as [Hrs|Hrs] end;
        injection Hs as <-;
        (split; [lia|split; [intros a b Ha Hb|intros c a b Hc Ha Hb]]);
        try (assert (c = lf \/ c = rg) as [->| ->] by lia);
        rewrite ?El, ?Ex, ?Er in *; simplify_eq; cmp_solve.
    + destruct (Z.ltb_spec (cmp l x) 0) as [Hlx|Hlx]; injection Hs as <-;
        (split; [lia|split; [intros a b Ha Hb|intros c a b Hc Ha Hb]]);
        try (assert (c = lf \/ c = rg) as [->| ->] by lia);
        try (apply lookup_lt_Some in Hb; lia);
        rewrite ?El, ?Ex in *; simplify_eq; cmp_solve.
  - cbn [mbind option_bind] in Hs.
    destruct (Nat.ltb_spec rg (length es)) as [Hr|Hr]; [lia|].
    injection Hs as <-.
    split; [lia|split; [intros a b Ha Hb|intros c a b Hc Ha Hb]];
      try (apply lookup_lt_Some in Hb; lia).
    simplify_eq. cmp_solve.
Qed.

Lemma downHeap_elems_ordered es i es' :
  down_ordered cmp es i -> downHeap_elems cmp es i = Some es' ->
  heap_ordered cmp es'.
Proof.
  remember (length es - i)%nat as k eqn:Hk.
  revert es i Hk. induction k as [k IH] using lt_wf_ind.
  intros es i Hk [D1 D2] Hdown.
  rewrite downHeap_elems_eq in Hdown.
  destruct (smallest_of cmp es i) as [s|] eqn:Hs; [|discriminate].
  destruct (smallest_of_least es i s Hs) as (Hsi & Hleast_i & Hleast_c).
  destruct (decide (s = i)) as [->|Hne].
  - injection Hdown as <-. intros q c a b Hc Ha Hb.
    destruct (decide (q = i)) as [->|Hqi]; [eapply Hleast_c|eapply D1]; side.
  - destruct Hsi as [?|Hchild]; [contradiction|].
    apply smallest_of_range in Hs as Hrange.
    destruct (swap es i s) as [es1|] eqn:Hsw; [|discriminate].
    apply swap_length in Hsw as Hlen.
    apply (IH (length es1 - s)%nat ltac:(lia) es1 s eq_refl); [|exact Hdown].
    split.
    + intros q c a b Hc Hqs Ha Hb. look_through Hsw.
      all: try (unfold child in *; lia).
      all: match goal with
           | Ha : _ !! ?q = Some ?a, Hb : _ !! ?c = Some ?b |- _ ?a ?b <= 0 =>
               first [ eapply Hleast_i; side | eapply (Hleast_c c); side
                     | eapply (D2 q c); side | eapply (D1 q c); side ]
           end.
    + intros g c a b Hg Hc Ha Hb. look_through Hsw.
      all: try (unfold child in *; lia).
      eapply (D1 s c); side.
Qed.

Lemma Insert_elems_ordered es x es' :
  heap_ordered cmp es -> Insert_elems cmp es x = Some es' ->
  heap_ordered cmp es'.
Proof.
  unfold Insert_elems. intros Hord Hup.
  apply upHeap_elems_ordered in Hup; [exact Hup|].
  rewrite length_app, Nat.add_sub. split.
  - intros p c a b Hc Hne Ha Hb.
    apply lookup_lt_Some in Hb as Hlt. rewrite length_app in Hlt. simpl in Hlt.
    rewrite lookup_app_l in Ha by (unfold child in Hc; lia).
    rewrite lookup_app_l in Hb by lia.
    eapply Hord; eassumption.
  - intros g c a b Hg Hc Ha Hb.
    apply lookup_lt_Some in Hb as Hlt. rewrite length_app in Hlt. simpl in Hlt.
    unfold child in Hc. lia.
Qed.

Lemma Remove_elems_ordered es e es' :
  heap_ordered cmp es -> Remove_elems cmp es = Some (e, es') ->
  heap_ordered cmp es'.
Proof.
  unfold Remove_elems. intros Hord Hrm.
  destruct (es !! 0%nat) as [r|]; [|discriminate].
  destruct (es !! (length es - 1)%nat) as [l|]; [|discriminate].
  cbn [mbind option_bind] in Hrm.
  destruct (downHeap_elems cmp _ 0) as [es1|] eqn:Hdown; [|discriminate].
  injection Hrm as <- <-.
  apply downHeap_elems_ordered in Hdown; [exact Hdown|]. split.
  - intros p c a b Hc Hne Ha Hb.
    apply lookup_take_Some in Ha as [Ha _]. apply lookup_take_Some in Hb as [Hb _].
    rewrite list_lookup_insert_ne in Ha by congruence.
    rewrite list_lookup_insert_ne in Hb by (unfold child in Hc; lia).
    eapply Hord; eassumption.
  - intros g c a b Hg. unfold child in Hg. lia.
Qed.

(** The root is in order with every element. *)
Lemma root_least es r :
  heap_ordered cmp es -> es !! 0%nat = Some r ->
  forall i x, es !! i = Some x -> cmp r x <= 0.
Proof.
  intros Hord Hr i. induction i as [i IH] using lt_wf_ind. intros x Hx.
  destruct (decide (0 < i)%nat) as [Hpos|Hz].
  - pose proof (parent_child i Hpos) as Hpc.
    assert ((i - 1) / 2 < i)%nat as Hlt by (unfold child in Hpc; lia).
    apply lookup_lt_Some in Hx as Hi.
    destruct (lookup_lt_is_Some_2 es ((i - 1) / 2) ltac:(lia)) as [p Hp].
    apply (cmp_trans cmp Hcmp _ p).
    + eapply IH; eassumption.
    + eapply Hord; eassumption.
  - assert (i = 0%nat) as -> by lia. rewrite Hr in Hx. injection Hx as <-.
    apply cmp_refl.
Qed.

Lemma Remove_elems_root es e es' :
  heap_ordered cmp es -> Remove_elems cmp es = Some (e, es') ->
  Forall (fun x => cmp e x <= 0) es'.
Proof.
  intros Hord Hrm. destruct es as [|e0 es0]; [discriminate|].
  destruct (Remove_elems_perm cmp e0 es0) as (es1 & Heq & Hperm).
  rewrite Heq in Hrm. injection Hrm as <- <-.
  rewrite Hperm. apply Forall_forall. intros x Hin.
  apply list_elem_of_lookup in Hin as [j Hj].
  apply (root_least (e0 :: es0) e0 Hord eq_refl (S j) x Hj).
Qed.

(** Emptying an ordered heap yields its elements in order. *)
Lemma drain_elems_sorted k : forall es,
  length es = k -> heap_ordered cmp es ->
  exists out, drain_elems cmp k es = Some (out, []) /\
              out ≡ₚ es /\
              StronglySorted (fun a b => cmp a b <= 0) out.
Proof.
  induction k as [|k IH]; intros es Hlen Hord.
  - destruct es; [|discriminate]. exists []. repeat split; constructor.
  - destruct es as [|e es0]; [discriminate|].
    destruct (Remove_elems_perm cmp e es0) as (es1 & Hrm & Hperm).
    pose proof (Remove_elems_ordered _ _ _ Hord Hrm) as Hord1.
    pose proof (Remove_elems_root _ _ _ Hord Hrm) as Hroot.
    destruct (IH es1) as (out & Hdr & Hp & Hsorted); [|assumption|].
    { apply Permutation_length in Hperm. simpl in Hlen. lia. }
    exists (e :: out). cbn [drain_elems]. rewrite Hrm. cbn [mbind option_bind snd fst].
    rewrite Hdr. cbn [mbind option_bind snd fst]. repeat split.
    + now rewrite Hp, Hperm.
    + constructor; [assumption|]. now rewrite Hp.
Qed.

End order_facts.

(** * Facts about the store *)

Section window_facts.
Context {T : Type}.
Implicit Types a es : list T.

Lemma window_length a o n :
  (o + n <= length a)%nat -> length (take n (drop o a)) = n.
Proof. intros H. rewrite length_take, length_drop. lia. Qed.

Lemma window_lookup a o n i :
  (i < n)%nat -> take n (drop o a) !! i = a !! (o + i)%nat.
Proof. intros H. rewrite lookup_take_lt by exact H. apply lookup_drop. Qed.

Lemma window_insert a o n i x :
  (i < n)%nat ->
  take n (drop o (<[(o + i)%nat := x]> a)) = <[i := x]> (take n (drop o a)).
Proof.
  intros H. rewrite drop_insert_ge by lia.
  replace (o + i - o)%nat with i by lia.
  now rewrite take_insert_lt by exact H.
Qed.

Lemma window_write a o n es :
  (o + n <= length a)%nat -> length es = n ->
  take n (drop o (take o a ++ es ++ drop (o + n) a)) = es.
Proof.
  intros Ha Hes.
  rewrite drop_app_length' by (rewrite length_take; lia).
  rewrite take_app_length' by (now symmetry). reflexivity.
Qed.

Lemma window_write_length a o n es :
  (o + n <= length a)%nat -> length es = n ->
  length (take o a ++ es ++ drop (o + n) a) = length a.
Proof.
  intros Ha Hes. rewrite !length_app, length_take, length_drop. lia.
Qed.

Lemma window_snoc a o n x :
  (o + n < length a)%nat ->
  take (n + 1) (drop o (<[(o + n)%nat := x]> a)) = take n (drop o a) ++ [x].
Proof.
  intros H. rewrite drop_insert_ge by lia.
  replace (o + n - o)%nat with n by lia.
  assert (n < length (drop o a))%nat as Hn by (rewrite length_drop; lia).
  destruct (lookup_lt_is_Some_2 _ _ Hn) as [y Hy].
  rewrite Nat.add_1_r.
  rewrite (take_S_r (<[n := x]> (drop o a)) n x)
    by (now apply list_lookup_insert_eq).
  now rewrite take_insert_ge by lia.
Qed.

End window_facts.

Section store_facts.
Context {T : Type} {zero_T : Zero T} {rt : Runtime}.
Implicit Types (σ : mem T) (s : slice) (h : Heap T) (es a : list T).

Lemma bind_eq {A B} (c : M T A) (f : A -> M T B) σ r σ' :
  c σ = Some (r, σ') -> (c ≫= f) σ = f r σ'.
Proof. intros H. unfold mbind, M_bind. now rewrite H. Qed.

Lemma load_eq σ p h : structs σ !! p = Some h -> load p σ = Some (h, σ).
Proof. intros H. unfold load, lift. now rewrite H. Qed.

Lemma store_eq σ p h0 h :
  structs σ !! p = Some h0 -> store p h σ = Some (tt, set_struct p h σ).
Proof. intros H. unfold store. now rewrite H. Qed.

Lemma read_array_eq σ b a :
  arrays σ !! b = Some a -> read_array b σ = Some (a, σ).
Proof. intros H. unfold read_array, lift. now rewrite H. Qed.

Lemma write_array_eq σ b a0 a :
  arrays σ !! b = Some a0 -> write_array b a σ = Some (tt, set_array b a σ).
Proof. intros H. unfold write_array. now rewrite H. Qed.

Lemma cap_eq σ s a :
  arrays σ !! base s = Some a -> cap s σ = Some ((length a - off s)%nat, σ).
Proof. intros H. unfold cap. now rewrite (bind_eq _ _ _ _ _ (read_array_eq _ _ _ H)). Qed.

Lemma read_slice_eq σ s es : slice_at σ s es -> read_slice s σ = Some (es, σ).
Proof.
  intros (a & Ha & Hle & <-). unfold read_slice.
  rewrite (bind_eq _ _ _ _ _ (read_array_eq _ _ _ Ha)).
  destruct (Nat.leb_spec (off s + len s) (length a)); [reflexivity|lia].
Qed.

Lemma write_slice_eq σ s a es :
  arrays σ !! base s = Some a ->
  write_slice s es σ =
  Some (tt, set_array (base s) (take (off s) a ++ es ++ drop (off s + len s) a) σ).
Proof.
  intros Ha. unfold write_slice.
  rewrite (bind_eq _ _ _ _ _ (read_array_eq _ _ _ Ha)).
  now apply write_array_eq with a.
Qed.

Lemma index_get_eq σ s es i x :
  slice_at σ s es -> es !! i = Some x -> index_get s i σ = Some (x, σ).
Proof.
  intros (a & Ha & Hle & <-) Hx. unfold index_get.
  apply lookup_lt_Some in Hx as Hi. rewrite window_length in Hi by exact Hle.
  destruct (Nat.ltb_spec i (len s)); [|lia].
  rewrite (bind_eq _ _ _ _ _ (read_array_eq _ _ _ Ha)).
  rewrite window_lookup in Hx by exact Hi. unfold lift. now rewrite Hx.
Qed.

Lemma slice_at_length σ s es : slice_at σ s es -> length es = len s.
Proof. intros (a & Ha & Hle & <-). now apply window_length. Qed.

Lemma slice_at_set_array σ s b a es :
  base s = b -> (off s + len s <= length a)%nat ->
  take (len s) (drop (off s) a) = es ->
  slice_at (set_array b a σ) s es.
Proof.
  intros <- Hle Hes. exists a. simpl. now rewrite lookup_insert_eq.
Qed.

Lemma index_set_eq σ s es i x :
  slice_at σ s es -> (i < length es)%nat ->
  exists a, index_set s i x σ = Some (tt, set_array (base s) a σ) /\
            slice_at (set_array (base s) a σ) s (<[i := x]> es).
Proof.
  intros (a & Ha & Hle & <-) Hi. rewrite window_length in Hi by exact Hle.
  exists (<[(off s + i)%nat := x]> a). unfold index_set.
  destruct (Nat.ltb_spec i (len s)); [|lia].
  rewrite (bind_eq _ _ _ _ _ (read_array_eq _ _ _ Ha)).
  destruct (Nat.ltb_spec (off s + i) (length a)); [|lia].
  split; [now apply write_array_eq with a|].
  apply slice_at_set_array; [reflexivity|now rewrite length_insert|].
  now apply window_insert.
Qed.

Lemma reslice_eq σ s es k :
  slice_at σ s es -> (k <= length es)%nat ->
  reslice s k σ = Some (Slice (base s) (off s) k, σ) /\
  slice_at σ (Slice (base s) (off s) k) (take k es).
Proof.
  intros (a & Ha & Hle & <-) Hk. rewrite window_length in Hk by exact Hle.
  unfold reslice. rewrite (bind_eq _ _ _ _ _ (cap_eq _ _ _ Ha)).
  destruct (Nat.leb_spec k (length a - off s)); [|lia].
  split; [reflexivity|].
  exists a. simpl. split; [exact Ha|]. split; [lia|].
  rewrite take_take. f_equal. lia.
Qed.

(** [append] either writes in place or moves to an array that was not
    allocated before. *)
Lemma append_eq σ s es x :
  slice_at σ s es ->
  exists s' a, append s x σ = Some (s', set_array (base s') a σ) /\
               slice_at (set_array (base s') a σ) s' (es ++ [x]) /\
               (base s' = base s \/ arrays σ !! base s' = None).
Proof.
  intros Hs. pose proof Hs as (a & Ha & Hle & Hes). unfold append.
  rewrite (bind_eq _ _ _ _ _ (cap_eq _ _ _ Ha)).
  destruct (Nat.ltb_spec (len s) (length a - off s)) as [Hroom|Hfull].
  - exists (Slice (base s) (off s) (len s + 1)), (<[(off s + len s)%nat := x]> a).
    rewrite (bind_eq _ _ _ _ _ (read_array_eq _ _ _ Ha)).
    rewrite (bind_eq _ _ _ _ _ (write_array_eq _ _ _ _ Ha)).
    split; [reflexivity|]. split; [|now left].
    apply slice_at_set_array; simpl; [reflexivity|rewrite length_insert; lia|].
    rewrite <- Hes. apply window_snoc. lia.
  - rewrite (bind_eq _ _ _ _ _ (read_slice_eq _ _ _ Hs)).
    set (b := fresh (dom (arrays σ))).
    set (a' := es ++ x :: replicate (growcap (length a - off s) - (len s + 1)) zero).
    exists (Slice b 0 (len s + 1)), a'.
    split; [reflexivity|]. split.
    + apply slice_at_set_array; simpl.
      * reflexivity.
      * unfold a'. rewrite length_app. simpl.
        rewrite (slice_at_length _ _ _ Hs). lia.
      * unfold a'. rewrite drop_0.
        rewrite (cons_middle x es), app_assoc.
        apply take_app_length'. rewrite length_app, (slice_at_length _ _ _ Hs).
        reflexivity.
    + right. simpl. apply not_elem_of_dom. apply is_fresh.
Qed.

End store_facts.

Section heap_facts.
Context {T : Type} {zero_T : Zero T} {rt : Runtime}.
Implicit Types (σ : mem T) (s : slice) (h : Heap T) (es a : list T).

(** ** Preservation of what was allocated before *)

Lemma preserved_refl σ : preserved σ σ.
Proof. split; reflexivity. Qed.

Lemma preserved_trans σ0 σ1 σ2 :
  preserved σ0 σ1 -> preserved σ1 σ2 -> preserved σ0 σ2.
Proof. intros [? ?] [? ?]. split; etransitivity; eassumption. Qed.

Lemma preserved_set_array σ0 σ b a :
  preserved σ0 σ -> arrays σ0 !! b = None -> preserved σ0 (set_array b a σ).
Proof.
  intros [Ha Hs] Hb. split; [|exact Hs]. simpl.
  now apply insert_subseteq_r.
Qed.

Lemma preserved_set_struct σ0 σ p h :
  preserved σ0 σ -> structs σ0 !! p = None -> preserved σ0 (set_struct p h σ).
Proof.
  intros [Ha Hs] Hp. split; [exact Ha|]. simpl.
  now apply insert_subseteq_r.
Qed.

Lemma preserved_fresh σ0 σ b :
  preserved σ0 σ -> arrays σ !! b = None -> arrays σ0 !! b = None.
Proof. intros [Ha _] Hb. eapply lookup_weaken_None; eassumption. Qed.

Lemma slice_at_preserved σ0 σ s es :
  preserved σ0 σ -> slice_at σ0 s es -> slice_at σ s es.
Proof.
  intros [Ha _] (a & Hl & Hle & Hes). exists a.
  split; [|now split]. eapply lookup_weaken; eassumption.
Qed.

Lemma heap_at_preserved σ0 σ m cmp es :
  preserved σ0 σ -> heap_at σ0 m cmp es -> heap_at σ m cmp es.
Proof.
  intros Hp (s & Hs & Hsl). exists s. split.
  - destruct Hp as [_ Hst]. eapply lookup_weaken; eassumption.
  - eapply slice_at_preserved; eassumption.
Qed.

Lemma private_set_array σ0 σ m b a :
  private σ0 σ m -> arrays σ0 !! b = None -> private σ0 (set_array b a σ) m.
Proof.
  intros (Hp & Hm & Hb) Hnew. split; [now apply preserved_set_array|].
  split; [exact Hm|exact Hb].
Qed.

Lemma private_set_struct σ0 σ m h :
  private σ0 σ m -> arrays σ0 !! base (elements h) = None ->
  private σ0 (set_struct m h σ) m.
Proof.
  intros (Hp & Hm & Hb) Hnew. split; [now apply preserved_set_struct|].
  split; [exact Hm|]. simpl. intros h'. rewrite lookup_insert_eq.
  now intros [= <-].
Qed.

(** ** Allocation *)

Lemma make_eq σ n :
  make n σ = Some (Slice (fresh (dom (arrays σ))) 0 n,
                   set_array (fresh (dom (arrays σ))) (replicate n zero) σ).
Proof. reflexivity. Qed.

Lemma new_eq σ h :
  new h σ = Some (fresh (dom (structs σ)), set_struct (fresh (dom (structs σ))) h σ).
Proof. reflexivity. Qed.

Lemma fresh_array σ : arrays σ !! fresh (dom (arrays σ)) = None.
Proof. apply not_elem_of_dom, is_fresh. Qed.

Lemma fresh_struct σ : structs σ !! fresh (dom (structs σ)) = None.
Proof. apply not_elem_of_dom, is_fresh. Qed.

(** A heap made of a new array and a new struct. *)
Lemma alloc_heap σ cmp a n :
  length a = n ->
  exists m σ',
    (es ← (fun σ => Some (Slice (fresh (dom (arrays σ))) 0 n,
                          set_array (fresh (dom (arrays σ))) a σ)) : M T slice;
     new (mkHeap es cmp)) σ = Some (m, σ') /\
    heap_at σ' m cmp a /\ private σ σ' m.
Proof.
  intros Hn.
  exists (fresh (dom (structs σ))),
    (set_struct (fresh (dom (structs σ)))
       (mkHeap (Slice (fresh (dom (arrays σ))) 0 n) cmp)
       (set_array (fresh (dom (arrays σ))) a σ)).
  split; [reflexivity|]. split.
  - eexists. split; [apply lookup_insert_eq|].
    exists a. simpl. rewrite lookup_insert_eq. split; [reflexivity|].
    split; [lia|]. rewrite drop_0. apply take_ge. lia.
  - split; [|split].
    + apply preserved_set_struct; [|apply fresh_struct].
      apply preserved_set_array; [apply preserved_refl|apply fresh_array].
    + apply fresh_struct.
    + simpl. intros h. rewrite lookup_insert_eq. intros [= <-]. apply fresh_array.
Qed.

Lemma NewGenericHeap_spec σ cmp :
  exists m σ', NewGenericHeap cmp σ = Some (m, σ') /\
               heap_at σ' m cmp [] /\ private σ σ' m.
Proof. apply (alloc_heap σ cmp [] 0 eq_refl). Qed.

(** ** The methods *)

Lemma Size_eq σ m cmp es :
  heap_at σ m cmp es -> Size m σ = Some (length es, σ).
Proof.
  intros (s & Hs & Hsl). unfold Size.
  rewrite (bind_eq _ _ _ _ _ (load_eq _ _ _ Hs)).
  now rewrite (slice_at_length _ _ _ Hsl).
Qed.

(** A loop on the elements, run through the pointer. *)
Lemma loop_spec (loop : (T -> T -> Z) -> list T -> nat -> option (list T))
    σ m cmp es i es' :
  heap_at σ m cmp es -> loop cmp es i = Some es' -> length es' = length es ->
  exists σ',
    (h ← load m; es ← read_slice (elements h);
     es' ← lift (loop (compare h) es i); write_slice (elements h) es') σ
    = Some (tt, σ') /\
    heap_at σ' m cmp es' /\
    (forall σ0, private σ0 σ m -> private σ0 σ' m).
Proof.
  intros (s & Hs & Hsl) Hloop Hlen.
  pose proof Hsl as (a & Ha & Hle & Hes).
  eexists. split; [|split].
  - rewrite (bind_eq _ _ _ _ _ (load_eq _ _ _ Hs)). simpl.
    rewrite (bind_eq _ _ _ _ _ (read_slice_eq _ _ _ Hsl)).
    unfold lift at 1. rewrite Hloop.
    erewrite bind_eq by reflexivity. exact (write_slice_eq _ _ _ _ Ha).
  - exists s. split; [exact Hs|].
    rewrite (slice_at_length _ _ _ Hsl) in Hlen.
    apply slice_at_set_array; [reflexivity| |].
    + now rewrite window_write_length.
    + now apply window_write.
  - intros σ0 Hpriv. apply private_set_array; [exact Hpriv|].
    destruct Hpriv as (_ & _ & Hb). apply (Hb _ Hs).
Qed.

Lemma upHeap_elems_length cmp es i es' :
  upHeap_elems cmp es i = Some es' -> (i < length es \/ i = 0)%nat ->
  length es' = length es.
Proof.
  intros Hup Hi. destruct (upHeap_elems_perm cmp i es Hi) as (es1 & H1 & Hp).
  rewrite Hup in H1. injection H1 as <-. now apply Permutation_length.
Qed.

Lemma downHeap_elems_length cmp es i es' :
  downHeap_elems cmp es i = Some es' -> length es' = length es.
Proof.
  intros Hdown. destruct (downHeap_elems_perm cmp es i) as (es1 & H1 & Hp).
  rewrite Hdown in H1. injection H1 as <-. now apply Permutation_length.
Qed.

Lemma Insert_spec σ m cmp es x es' :
  heap_at σ m cmp es -> Insert_elems cmp es x = Some es' ->
  exists σ', Insert m x σ = Some (tt, σ') /\
             heap_at σ' m cmp es' /\
             (forall σ0, private σ0 σ m -> private σ0 σ' m).
Proof.
  intros (s & Hs & Hsl) Hins. unfold Insert_elems in Hins.
  destruct (append_eq σ s es x Hsl) as (s' & a1 & Happ & Hsl' & Hbase).
  set (σ1 := set_array (base s') a1 σ) in *.
  set (σ2 := set_struct m (mkHeap s' cmp) σ1).
  assert (structs σ2 !! m = Some (mkHeap s' cmp)) as Hs2
    by apply lookup_insert_eq.
  assert (heap_at σ2 m cmp (es ++ [x])) as Hat2
    by (exists s'; split; [exact Hs2|exact Hsl']).
  destruct (loop_spec upHeap_elems σ2 m cmp (es ++ [x])
              (length (es ++ [x]) - 1) es' Hat2 Hins) as (σ3 & Hup & Hat3 & Hfr).
  { apply (upHeap_elems_length _ _ _ _ Hins). rewrite length_app. simpl. lia. }
  exists σ3. split; [|split; [exact Hat3|]].
  - unfold Insert.
    rewrite (bind_eq _ _ _ _ _ (load_eq _ _ _ Hs)). simpl.
    rewrite (bind_eq _ _ _ _ _ Happ).
    rewrite (bind_eq _ _ _ _ _ (store_eq σ1 m _ (mkHeap s' cmp) Hs)).
    rewrite (bind_eq _ _ _ _ _ (load_eq _ _ _ Hs2)). simpl.
    rewrite <- (slice_at_length _ _ _ Hsl'). exact Hup.
  - intros σ0 Hpriv. apply Hfr.
    assert (arrays σ0 !! base s' = None) as Hnew.
    { destruct Hpriv as (Hp & _ & Hb). destruct Hbase as [->|Hfresh].
      - apply (Hb _ Hs).
      - eapply preserved_fresh; eassumption. }
    apply private_set_struct; [|exact Hnew].
    apply private_set_array; assumption.
Qed.

Lemma Remove_empty σ m cmp :
  heap_at σ m cmp [] ->
  Remove m σ = Some ((zero, Some EmptyContainer), σ).
Proof.
  intros Hat. unfold Remove.
  now rewrite (bind_eq _ _ _ _ _ (Size_eq _ _ _ _ Hat)).
Qed.

Lemma Remove_spec σ m cmp es e es' :
  heap_at σ m cmp es -> Remove_elems cmp es = Some (e, es') ->
  exists σ', Remove m σ = Some ((e, None), σ') /\
             heap_at σ' m cmp es' /\
             (forall σ0, private σ0 σ m -> private σ0 σ' m).
Proof.
  intros Hat Hrm. pose proof Hat as (s & Hs & Hsl).
  unfold Remove_elems in Hrm.
  destruct (es !! 0%nat) as [e0|] eqn:He; [|discriminate].
  destruct (es !! (length es - 1)%nat) as [l|] eqn:Hl; [|discriminate].
  cbn [mbind option_bind] in Hrm.
  destruct (downHeap_elems cmp _ 0) as [es1|] eqn:Hdown; [|discriminate].
  injection Hrm as <- <-.
  apply lookup_lt_Some in He as Hpos.
  destruct (index_set_eq σ s es 0 l Hsl Hpos) as (a1 & Hset & Hsl1).
  set (σ1 := set_array (base s) a1 σ) in *.
  assert (heap_at σ1 m cmp (<[0%nat := l]> es)) as Hat1
    by (exists s; split; [exact Hs|exact Hsl1]).
  destruct (reslice_eq σ1 s _ (length es - 1) Hsl1) as (Hre & Hsl2).
  { rewrite length_insert. lia. }
  set (s2 := Slice (base s) (off s) (length es - 1)) in *.
  set (σ2 := set_struct m (mkHeap s2 cmp) σ1).
  assert (heap_at σ2 m cmp (take (length es - 1) (<[0%nat := l]> es))) as Hat2
    by (exists s2; split; [apply lookup_insert_eq|exact Hsl2]).
  destruct (loop_spec downHeap_elems σ2 m cmp _ 0 es1 Hat2 Hdown)
    as (σ3 & Hdn & Hat3 & Hfr).
  { apply (downHeap_elems_length _ _ _ _ Hdown). }
  exists σ3. split; [|split; [exact Hat3|]].
  - unfold Remove.
    rewrite (bind_eq _ _ _ _ _ (Size_eq _ _ _ _ Hat)).
    destruct (Nat.eqb_spec (length es) 0) as [Hz|_]; [lia|].
    rewrite (bind_eq _ _ _ _ _ (load_eq _ _ _ Hs)). simpl.
    rewrite (bind_eq _ _ _ _ _ (index_get_eq _ _ _ _ _ Hsl He)).
    rewrite (bind_eq _ _ _ _ _ (Size_eq _ _ _ _ Hat)).
    rewrite (bind_eq _ _ _ _ _ (index_get_eq _ _ _ _ _ Hsl Hl)).
    rewrite (bind_eq _ _ _ _ _ Hset).
    rewrite (bind_eq _ _ _ _ _ (load_eq σ1 _ _ Hs)). simpl.
    rewrite (bind_eq _ _ _ _ _ (Size_eq _ _ _ _ Hat1)).
    rewrite length_insert.
    rewrite (bind_eq _ _ _ _ _ Hre).
    rewrite (bind_eq _ _ _ _ _ (store_eq σ1 m _ (mkHeap s2 cmp) Hs)).
    fold σ2. unfold downHeap in *.
    now rewrite (bind_eq _ _ _ _ _ Hdn).
  - intros σ0 Hpriv. apply Hfr.
    assert (arrays σ0 !! base s = None) as Hnew.
    { destruct Hpriv as (_ & _ & Hb). apply (Hb _ Hs). }
    apply private_set_struct; [|exact Hnew].
    apply private_set_array; assumption.
Qed.

End heap_facts.

(** * Facts about the derived functions *)

Section derived_elems.
Context {T : Type} (cmp : T -> T -> Z).

Lemma Insert_all_perm xs : forall es,
  exists es', Insert_all cmp es xs = Some es' /\ es' ≡ₚ es ++ xs.
Proof.
  induction xs as [|x xs IH]; intros es.
  - exists es. split; [reflexivity|]. now rewrite app_nil_r.
  - destruct (Insert_elems_perm cmp es x) as (es1 & H1 & Hp1).
    destruct (IH es1) as (es' & H' & Hp').
    exists es'. cbn [Insert_all]. rewrite H1. cbn [mbind option_bind].
    split; [exact H'|]. rewrite Hp', Hp1.
    rewrite (Permutation_middle es xs x). reflexivity.
Qed.

Lemma Insert_all_app xs ys es es1 es2 :
  Insert_all cmp es xs = Some es1 -> Insert_all cmp es1 ys = Some es2 ->
  Insert_all cmp es (xs ++ ys) = Some es2.
Proof.
  revert es. induction xs as [|x xs IH]; intros es Hx Hy.
  - injection Hx as ->. exact Hy.
  - cbn [Insert_all app] in *.
    destruct (Insert_elems cmp es x) as [e1|]; [|discriminate].
    cbn [mbind option_bind] in *. now apply IH.
Qed.

Lemma Insert_all_ordered (Hcmp : valid_comparator cmp) xs : forall es es',
  heap_ordered cmp es -> Insert_all cmp es xs = Some es' ->
  heap_ordered cmp es'.
Proof.
  induction xs as [|x xs IH]; intros es es' Hord Hall.
  - injection Hall as <-. exact Hord.
  - cbn [Insert_all] in Hall.
    destruct (Insert_elems cmp es x) as [e1|] eqn:H1; [|discriminate].
    cbn [mbind option_bind] in Hall.
    apply (IH e1 es'); [|exact Hall].
    eapply Insert_elems_ordered; eassumption.
Qed.

Lemma heap_ordered_nil : heap_ordered cmp [].
Proof. intros i c x y _ Hx. discriminate. Qed.

(** Removing [k] times from at least [k] elements succeeds. *)
Lemma drain_elems_Some k : forall es,
  (k <= length es)%nat ->
  exists out rest, drain_elems cmp k es = Some (out, rest) /\
                   length out = k /\ out ++ rest ≡ₚ es.
Proof.
  induction k as [|k IH]; intros es Hk.
  - exists [], es. repeat split; reflexivity.
  - destruct es as [|e es0]; [simpl in Hk; lia|].
    destruct (Remove_elems_perm cmp e es0) as (es1 & Hrm & Hperm).
    destruct (IH es1) as (out & rest & Hdr & Hlen & Hp).
    { apply Permutation_length in Hperm. simpl in Hk. lia. }
    exists (e :: out), rest. cbn [drain_elems]. rewrite Hrm.
    cbn [mbind option_bind fst snd]. rewrite Hdr. cbn [mbind option_bind fst snd].
    split; [reflexivity|]. split; [simpl; lia|].
    simpl. now rewrite Hp, Hperm.
Qed.

Lemma drain_elems_app k j : forall es o1 r1 o2 r2,
  drain_elems cmp k es = Some (o1, r1) ->
  drain_elems cmp j r1 = Some (o2, r2) ->
  drain_elems cmp (k + j) es = Some (o1 ++ o2, r2).
Proof.
  induction k as [|k IH]; intros es o1 r1 o2 r2 Hk Hj.
  - injection Hk as <- <-. exact Hj.
  - cbn [drain_elems Nat.add] in *.
    destruct (Remove_elems cmp es) as [[e es1]|]; [|discriminate].
    cbn [mbind option_bind fst snd] in *.
    destruct (drain_elems cmp k es1) as [[d1 d2]|] eqn:Hd; [|discriminate].
    cbn [mbind option_bind fst snd] in Hk. injection Hk as <- <-.
    rewrite (IH _ _ _ _ _ Hd Hj). reflexivity.
Qed.

Lemma drain_elems_ordered (Hcmp : valid_comparator cmp) k : forall es out rest,
  heap_ordered cmp es -> drain_elems cmp k es = Some (out, rest) ->
  heap_ordered cmp rest.
Proof.
  induction k as [|k IH]; intros es out rest Hord Hk.
  - injection Hk as <- <-. exact Hord.
  - cbn [drain_elems] in Hk.
    destruct (Remove_elems cmp es) as [[e es1]|] eqn:Hrm; [|discriminate].
    cbn [mbind option_bind fst snd] in Hk.
    destruct (drain_elems cmp k es1) as [[d1 d2]|] eqn:Hd; [|discriminate].
    cbn [mbind option_bind fst snd] in Hk. injection Hk as <- <-.
    apply (IH es1 d1 d2); [|exact Hd].
    eapply Remove_elems_ordered; eassumption.
Qed.

(** The [k]-th value removed is the [k]-th element of a sorted
    arrangement of the elements. *)
Lemma drain_elems_rank (Hcmp : valid_comparator cmp) k es out rest :
  heap_ordered cmp es -> drain_elems cmp k es = Some (out, rest) ->
  exists sorted, sorted ≡ₚ es /\
                 StronglySorted (fun a b => cmp a b <= 0) sorted /\
                 take k sorted = out.
Proof.
  intros Hord Hk.
  pose proof (drain_elems_ordered Hcmp _ _ _ _ Hord Hk) as Hord'.
  destruct (drain_elems_sorted cmp Hcmp (length rest) rest eq_refl Hord')
    as (o2 & Hj & Hp2 & _).
  pose proof (drain_elems_app _ _ _ _ _ _ _ Hk Hj) as Hall.
  assert (length out = k /\ out ++ rest ≡ₚ es) as [Hlen Hperm].
  { clear -Hk. revert es out rest Hk. induction k as [|k IH]; intros es out rest Hk.
    - injection Hk as <- <-. split; reflexivity.
    - cbn [drain_elems] in Hk.
      destruct (Remove_elems cmp es) as [[e es1]|] eqn:Hrm; [|discriminate].
      cbn [mbind option_bind fst snd] in Hk.
      destruct (drain_elems cmp k es1) as [[d1 d2]|] eqn:Hd; [|discriminate].
      cbn [mbind option_bind fst snd] in Hk. injection Hk as <- <-.
      destruct (IH _ _ _ Hd) as [Hl Hp].
      destruct es as [|e0 es0]; [discriminate|].
      destruct (Remove_elems_perm cmp e0 es0) as (es2 & Hrm2 & Hp2).
      rewrite Hrm in Hrm2. injection Hrm2 as -> ->.
      split; [simpl; lia|]. simpl. now rewrite Hp, Hp2. }
  destruct (drain_elems_sorted cmp Hcmp (length es) es eq_refl Hord)
    as (full & Hfull & Hpf & Hsf).
  assert (k + length rest = length es)%nat as Hsum.
  { apply Permutation_length in Hperm. rewrite length_app in Hperm. lia. }
  rewrite Hsum, Hfull in Hall. injection Hall as ->.
  exists (out ++ o2). split; [exact Hpf|]. split; [exact Hsf|].
  now apply take_app_length'.
Qed.

End derived_elems.

Section derived_facts.
Context {T : Type} {zero_T : Zero T} {rt : Runtime}.
Implicit Types (σ : mem T) (s : slice) (h : Heap T) (es a xs : list T).

(** A [range] loop that inserts into a heap created after [σ0], over a
    slice that lives in [σ0]: the slice is not disturbed, and the heap
    receives its elements in order. *)
Lemma for_indices_Insert σ0 s xs r cmp n : forall k σ es es',
  (k + n = len s)%nat -> slice_at σ0 s xs ->
  private σ0 σ r -> heap_at σ r cmp es ->
  Insert_all cmp es (drop k xs) = Some es' ->
  exists σ', for_indices s (fun element => Insert r element) (seq k n) σ
             = Some (tt, σ') /\
             heap_at σ' r cmp es' /\ private σ0 σ' r.
Proof.
  induction n as [|n IH]; intros k σ es es' Hk Hsl Hpriv Hat Hall.
  - rewrite drop_ge in Hall by (rewrite (slice_at_length _ _ _ Hsl); lia).
    injection Hall as <-. exists σ. split; [reflexivity|split; assumption].
  - pose proof (slice_at_length _ _ _ Hsl) as Hlen.
    destruct (lookup_lt_is_Some_2 xs k ltac:(lia)) as [x Hx].
    rewrite (drop_S _ _ _ Hx) in Hall. cbn [Insert_all] in Hall.
    destruct (Insert_elems cmp es x) as [es1|] eqn:H1; [|discriminate].
    cbn [mbind option_bind] in Hall.
    destruct (Insert_spec σ r cmp es x es1 Hat H1) as (σ1 & Hins & Hat1 & Hfr).
    destruct (IH (S k) σ1 es1 es' ltac:(lia) Hsl (Hfr _ Hpriv) Hat1 Hall)
      as (σ' & Hrest & Hat' & Hpriv').
    exists σ'. split; [|split; assumption].
    cbn [seq for_indices].
    assert (slice_at σ s xs) as Hsl'
      by (eapply slice_at_preserved; [apply Hpriv|exact Hsl]).
    rewrite (bind_eq _ _ _ _ _ (index_get_eq _ _ _ _ _ Hsl' Hx)).
    rewrite (bind_eq _ _ _ _ _ Hins). exact Hrest.
Qed.

Lemma for_range_Insert σ0 s xs r cmp σ es es' :
  slice_at σ0 s xs -> private σ0 σ r -> heap_at σ r cmp es ->
  Insert_all cmp es xs = Some es' ->
  exists σ', for_range s (fun element => Insert r element) σ = Some (tt, σ') /\
             heap_at σ' r cmp es' /\ private σ0 σ' r.
Proof.
  intros Hsl Hpriv Hat Hall. unfold for_range.
  now apply (for_indices_Insert σ0 s xs r cmp (len s) 0 σ es es').
Qed.

Lemma RemoveUntilEmpty_spec cmp fuel : forall σ m es out,
  (length es <= fuel)%nat -> heap_at σ m cmp es ->
  drain_elems cmp (length es) es = Some (out, []) ->
  exists σ', RemoveUntilEmpty m fuel σ = Some (out, σ') /\ heap_at σ' m cmp [].
Proof.
  induction fuel as [|fuel IH]; intros σ m es out Hfuel Hat Hdr.
  - destruct es; [|simpl in Hfuel; lia]. injection Hdr as <-.
    exists σ. split; [reflexivity|exact Hat].
  - cbn [RemoveUntilEmpty]. rewrite (bind_eq _ _ _ _ _ (Size_eq _ _ _ _ Hat)).
    destruct es as [|e es0].
    { injection Hdr as <-. exists σ. split; [reflexivity|exact Hat]. }
    cbn [length Nat.eqb drain_elems] in *.
    destruct (Remove_elems cmp (e :: es0)) as [[e' es1]|] eqn:Hrm; [|discriminate].
    cbn [mbind option_bind fst snd] in Hdr.
    destruct (drain_elems cmp (length es0) es1) as [[d1 d2]|] eqn:Hd; [|discriminate].
    cbn [mbind option_bind fst snd] in Hdr. injection Hdr as <- ->.
    destruct (Remove_spec σ m cmp _ _ _ Hat Hrm) as (σ1 & Hrem & Hat1 & _).
    assert (length es1 = length es0) as Hlen.
    { destruct (Remove_elems_perm cmp e es0) as (es2 & H2 & Hp).
      rewrite Hrm in H2. injection H2 as _ ->. now apply Permutation_length. }
    rewrite <- Hlen in Hd.
    destruct (IH σ1 m es1 d1 ltac:(lia) Hat1 Hd) as (σ' & Hrest & Hat').
    exists σ'. split; [|exact Hat'].
    rewrite (bind_eq _ _ _ _ _ Hrem). cbn [fst].
    now rewrite (bind_eq _ _ _ _ _ Hrest).
Qed.

End derived_facts.

Section calls_facts.
Context {T : Type} {zero_T : Zero T} {rt : Runtime}.
Implicit Types (σ : mem T) (es : list T).

(** Any sequence of calls runs to its end and keeps the invariant. *)
Lemma run_calls_spec cmp (Hcmp : valid_comparator cmp) cs : forall σ m es,
  heap_at σ m cmp es -> heap_ordered cmp es ->
  exists σ' es', run_calls m cs σ = Some (tt, σ') /\
                 heap_at σ' m cmp es' /\ heap_ordered cmp es'.
Proof.
  induction cs as [|c cs IH]; intros σ m es Hat Hord.
  - exists σ, es. split; [reflexivity|split; assumption].
  - cbn [run_calls]. destruct c as [x|]; cbn [run_call].
    + destruct (Insert_elems_perm cmp es x) as (es1 & H1 & _).
      destruct (Insert_spec σ m cmp es x es1 Hat H1) as (σ1 & Hins & Hat1 & _).
      pose proof (Insert_elems_ordered cmp Hcmp _ _ _ Hord H1) as Hord1.
      destruct (IH σ1 m es1 Hat1 Hord1) as (σ' & es' & Hrun & Hat' & Hord').
      exists σ', es'. split; [|split; assumption].
      now rewrite (bind_eq _ _ _ _ _ Hins).
    + destruct es as [|e es0].
      * destruct (IH σ m [] Hat Hord) as (σ' & es' & Hrun & Hat' & Hord').
        exists σ', es'. split; [|split; assumption].
        erewrite bind_eq; [exact Hrun|].
        now rewrite (bind_eq _ _ _ _ _ (Remove_empty _ _ _ Hat)).
      * destruct (Remove_elems_perm cmp e es0) as (es1 & Hrm & _).
        destruct (Remove_spec σ m cmp _ _ _ Hat Hrm) as (σ1 & Hrem & Hat1 & _).
        pose proof (Remove_elems_ordered cmp Hcmp _ _ _ Hord Hrm) as Hord1.
        destruct (IH σ1 m es1 Hat1 Hord1) as (σ' & es' & Hrun & Hat' & Hord').
        exists σ', es'. split; [|split; assumption].
        erewrite bind_eq; [exact Hrun|].
        now rewrite (bind_eq _ _ _ _ _ Hrem).
Qed.

End calls_facts.

Section ordered_facts.
Context {T : Type} {zero_T : Zero T} {ord_T : Ordered T} {rt : Runtime}.
Implicit Types (σ : mem T) (s : slice) (h : Heap T) (es xs : list T).

Lemma less_asym (a b : T) : less a b = true -> less b a = false.
Proof.
  intros Hab. destruct (less b a) eqn:Hba; [|reflexivity].
  pose proof (less_trans _ _ _ Hab Hba) as Haa.
  now rewrite less_irrefl in Haa.
Qed.

Lemma Compare_le (a b : T) : Compare a b <= 0 <-> less b a = false.
Proof.
  unfold Compare. destruct (less a b) eqn:Hab.
  - rewrite (less_asym _ _ Hab). split; [reflexivity|lia].
  - destruct (less b a); split; (reflexivity || lia || discriminate).
Qed.

Lemma Compare_valid : valid_comparator (Compare (T := T)).
Proof.
  split.
  - intros a b Hab. apply Compare_le. unfold Compare in Hab.
    destruct (less a b); [lia|reflexivity].
  - intros a b c. rewrite !Compare_le. intros Hba Hcb.
    destruct (less c a) eqn:Hca; [|reflexivity].
    destruct (less a b) eqn:Hab.
    + now rewrite (less_trans _ _ _ Hca Hab) in Hcb.
    + rewrite (less_total _ _ Hab Hba) in Hca. now rewrite Hca in Hcb.
Qed.

Lemma Compare_flip_valid : valid_comparator (fun a b : T => Compare b a).
Proof.
  destruct Compare_valid as [Hf Ht]. split.
  - intros a b. apply Hf.
  - intros a b c Hab Hbc. now apply (Ht c b a).
Qed.

Lemma NewMinHeap_spec σ :
  exists m σ', NewMinHeap σ = Some (m, σ') /\
               heap_at σ' m Compare [] /\ private σ σ' m.
Proof. apply (alloc_heap σ Compare [] 0 eq_refl). Qed.

Lemma NewMaxHeap_spec σ :
  exists m σ', NewMaxHeap σ = Some (m, σ') /\
               heap_at σ' m (fun a b => Compare b a) [] /\ private σ σ' m.
Proof. apply (alloc_heap σ (fun a b => Compare b a) [] 0 eq_refl). Qed.

Lemma EnesimoMaximo_loop_spec cmp k : forall σ c es v0 out rest,
  heap_at σ c cmp es -> drain_elems cmp k es = Some (out, rest) ->
  exists σ', EnesimoMaximo_loop c k v0 σ = Some ((default v0 (last out), None), σ') /\
             heap_at σ' c cmp rest /\
             (forall σ0, private σ0 σ c -> private σ0 σ' c).
Proof.
  induction k as [|k IH]; intros σ c es v0 out rest Hat Hdr.
  - injection Hdr as <- <-. exists σ. split; [reflexivity|]. split; auto.
  - cbn [drain_elems] in Hdr.
    destruct (Remove_elems cmp es) as [[e es1]|] eqn:Hrm; [|discriminate].
    cbn [mbind option_bind fst snd] in Hdr.
    destruct (drain_elems cmp k es1) as [[d1 d2]|] eqn:Hd; [|discriminate].
    cbn [mbind option_bind fst snd] in Hdr. injection Hdr as <- <-.
    destruct (Remove_spec σ c cmp _ _ _ Hat Hrm) as (σ1 & Hrem & Hat1 & Hfr1).
    destruct (IH σ1 c es1 e d1 d2 Hat1 Hd) as (σ' & Hloop & Hat' & Hfr').
    exists σ'. split; [|split; [exact Hat'|auto]].
    cbn [EnesimoMaximo_loop]. rewrite (bind_eq _ _ _ _ _ Hrem). cbn [fst snd].
    rewrite Hloop. do 3 f_equal.
    destruct d1 as [|d d1]; [reflexivity|]. rewrite last_cons_cons.
    destruct (last (d :: d1)) eqn:Hlast; [reflexivity|].
    now apply last_None in Hlast.
Qed.

Lemma EnesimoMaximo_invalid σ m cmp es n :
  heap_at σ m cmp es -> n < 1 \/ Z.of_nat (length es) < n ->
  EnesimoMaximo m n σ
  = Some ((zero, Some InvalidRank), σ).
Proof.
  intros Hat Hn. unfold EnesimoMaximo.
  destruct (Z.ltb_spec n 1); [reflexivity|].
  rewrite (bind_eq _ _ _ true σ).
  - reflexivity.
  - rewrite (bind_eq _ _ _ _ _ (Size_eq _ _ _ _ Hat)).
    destruct (Z.ltb_spec (Z.of_nat (length es)) n); [reflexivity|lia].
Qed.

Lemma EnesimoMaximo_valid σ m cmp es n out rest :
  heap_at σ m cmp es -> 1 <= n <= Z.of_nat (length es) ->
  drain_elems cmp (Z.to_nat n) es = Some (out, rest) ->
  exists σ', EnesimoMaximo m n σ = Some ((default zero (last out), None), σ') /\
             preserved σ σ'.
Proof.
  intros Hat Hn Hdr. pose proof Hat as (s & Hs & Hsl).
  pose proof Hsl as (a & Ha & Hle & Hes).
  pose proof (slice_at_length _ _ _ Hsl) as Hlen.
  set (b := fresh (dom (arrays σ))).
  set (c := fresh (dom (structs σ))).
  set (σ1 := set_array b (replicate (len s) zero) σ).
  set (hc := mkHeap (Slice b 0 (len s)) cmp).
  set (σ2 := set_struct c hc σ1).
  set (σ3 := set_array b (take 0 (replicate (len s) zero) ++ es
                            ++ drop (0 + len s) (replicate (len s) zero)) σ2).
  assert (arrays σ !! b = None) as Hb by apply fresh_array.
  assert (structs σ !! c = None) as Hc by apply fresh_struct.
  assert (c <> m) as Hcm by (intros ->; rewrite Hs in Hc; discriminate).
  assert (b <> base s) as Hbs by (intros Heq; rewrite Heq, Ha in Hb; discriminate).
  assert (structs σ2 !! c = Some hc) as Hc2 by apply lookup_insert_eq.
  assert (structs σ2 !! m = Some (mkHeap s cmp)) as Hm2
    by (simpl; rewrite lookup_insert_ne by exact Hcm; exact Hs).
  assert (slice_at σ2 (Slice (base s) (off s) (len s)) es) as Hsl2.
  { exists a. simpl. rewrite lookup_insert_ne by exact Hbs. now split. }
  assert (arrays σ2 !! b = Some (replicate (len s) zero)) as Hb2
    by apply lookup_insert_eq.
  assert (heap_at σ3 c cmp es) as Hat3.
  { exists (Slice b 0 (len s)). split; [exact Hc2|].
    apply slice_at_set_array; cbn [base off len]; [reflexivity| |].
    - rewrite window_write_length; rewrite ?length_replicate; lia.
    - apply window_write; rewrite ?length_replicate; lia. }
  assert (private σ σ3 c) as Hpriv.
  { apply private_set_array; [|exact Hb].
    apply private_set_struct; [|exact Hb].
    split; [|split].
    - apply preserved_set_array; [apply preserved_refl|exact Hb].
    - exact Hc.
    - simpl. intros h Hh. rewrite Hh in Hc. discriminate. }
  destruct (EnesimoMaximo_loop_spec cmp (Z.to_nat n) σ3 c es zero out rest Hat3 Hdr)
    as (σ' & Hloop & _ & Hfr).
  exists σ'. split; [|apply (Hfr σ Hpriv)].
  unfold EnesimoMaximo.
  destruct (Z.ltb_spec n 1); [lia|].
  rewrite (bind_eq _ _ _ false σ).
  2: { rewrite (bind_eq _ _ _ _ _ (Size_eq _ _ _ _ Hat)).
       destruct (Z.ltb_spec (Z.of_nat (length es)) n); [lia|reflexivity]. }
  rewrite (bind_eq _ _ _ _ _ (load_eq _ _ _ Hs)). cbn [elements compare].
  rewrite (bind_eq _ _ _ _ _ (make_eq σ (len s))). fold b σ1.
  rewrite (bind_eq _ _ _ _ _ (new_eq σ1 _)).
  change (fresh (dom (structs σ1))) with c. fold hc σ2.
  rewrite (bind_eq _ _ _ _ _ (load_eq _ _ _ Hc2)).
  rewrite (bind_eq _ _ _ _ _ (load_eq _ _ _ Hm2)).
  cbn [elements hc].
  assert (copy (Slice b 0 (len s)) s σ2 = Some (len s, σ3)) as Hcopy.
  { unfold copy. cbn [len base off]. rewrite Nat.min_id.
    rewrite (bind_eq _ _ _ _ _ (read_slice_eq _ _ _ Hsl2)).
    now rewrite (bind_eq _ _ _ _ _ (write_slice_eq σ2 (Slice b 0 (len s)) _ es Hb2)). }
  rewrite (bind_eq _ _ _ _ _ Hcopy). exact Hloop.
Qed.

Lemma CombinarMonticulos_guard σ p1 c1 es1 :
  heap_at σ p1 c1 es1 ->
  (if (1 <? length es1)%nat then
     h ← load p1;
     a ← index_get (elements h) 0;
     b ← index_get (elements h) 1;
     mret (compare h a b >? 0)
   else mret false) σ = Some (first_dominates c1 es1, σ).
Proof.
  intros (s & Hs & Hsl).
  destruct es1 as [|x [|y es1]]; [reflexivity..|].
  cbn [length Nat.ltb Nat.leb first_dominates].
  rewrite (bind_eq _ _ _ _ _ (load_eq _ _ _ Hs)). cbn [elements compare].
  rewrite (bind_eq _ _ _ _ _ (index_get_eq _ _ _ 0 x Hsl eq_refl)).
  now rewrite (bind_eq _ _ _ _ _ (index_get_eq _ _ _ 1 y Hsl eq_refl)).
Qed.

Lemma CombinarMonticulos_spec σ p1 p2 c1 c2 es1 es2 es' :
  heap_at σ p1 c1 es1 -> heap_at σ p2 c2 es2 ->
  Insert_all (merged_compare c1 es1) [] (es1 ++ es2) = Some es' ->
  exists r σ', CombinarMonticulos p1 p2 σ = Some (r, σ') /\
               heap_at σ' r (merged_compare c1 es1) es' /\
               private σ σ' r.
Proof.
  intros Hat1 Hat2 Hall.
  pose proof Hat1 as (s1 & Hs1 & Hsl1). pose proof Hat2 as (s2 & Hs2 & Hsl2).
  set (cmp := merged_compare c1 es1) in *.
  assert (exists r σc,
    (if first_dominates c1 es1 then NewMaxHeap else NewMinHeap) σ = Some (r, σc) /\
    heap_at σc r cmp [] /\ private σ σc r) as (r & σc & Hnew & Hatc & Hprivc).
  { unfold cmp, merged_compare. destruct (first_dominates c1 es1).
    - apply NewMaxHeap_spec.
    - apply NewMinHeap_spec. }
  destruct (Insert_all_perm cmp es1 []) as (mid & Hmid & _).
  destruct (Insert_all_perm cmp es2 mid) as (fin & Hfin & _).
  rewrite (Insert_all_app cmp _ _ _ _ _ Hmid Hfin) in Hall. injection Hall as <-.
  destruct (for_range_Insert σ s1 es1 r cmp σc [] mid Hsl1 Hprivc Hatc Hmid)
    as (σ1 & Hrun1 & Hatm & Hpriv1).
  destruct (for_range_Insert σ s2 es2 r cmp σ1 mid fin Hsl2 Hpriv1 Hatm Hfin)
    as (σ2 & Hrun2 & Hatf & Hpriv2).
  exists r, σ2. split; [|split; assumption].
  unfold CombinarMonticulos.
  rewrite (bind_eq _ _ _ _ _ (Size_eq _ _ _ _ Hat1)).
  rewrite (bind_eq _ _ _ _ _ (CombinarMonticulos_guard σ p1 c1 es1 Hat1)).
  rewrite (bind_eq _ _ _ _ _ Hnew).
  assert (structs σc !! p1 = Some (mkHeap s1 c1)) as Hs1c.
  { destruct Hprivc as ((_ & Hst) & _). eapply lookup_weaken; eassumption. }
  rewrite (bind_eq _ _ _ _ _ (load_eq _ _ _ Hs1c)). cbn [elements].
  rewrite (bind_eq _ _ _ _ _ Hrun1).
  assert (structs σ1 !! p2 = Some (mkHeap s2 c2)) as Hs2c.
  { destruct Hpriv1 as ((_ & Hst) & _). eapply lookup_weaken; eassumption. }
  rewrite (bind_eq _ _ _ _ _ (load_eq _ _ _ Hs2c)). cbn [elements].
  now rewrite (bind_eq _ _ _ _ _ Hrun2).
Qed.

Lemma NuevoMonticuloMaxDesdeArreglo_spec σ arr xs es' :
  slice_at σ arr xs ->
  Insert_all (fun a b : T => Compare b a) [] xs = Some es' ->
  exists r σ', NuevoMonticuloMaxDesdeArreglo arr σ = Some (r, σ') /\
               heap_at σ' r (fun a b => Compare b a) es' /\
               private σ σ' r.
Proof.
  intros Hsl Hall.
  destruct (NewMaxHeap_spec σ) as (r & σc & Hnew & Hatc & Hprivc).
  destruct (for_range_Insert σ arr xs r _ σc [] es' Hsl Hprivc Hatc Hall)
    as (σ1 & Hrun & Hat & Hpriv).
  exists r, σ1. split; [|split; assumption].
  unfold NuevoMonticuloMaxDesdeArreglo.
  rewrite (bind_eq _ _ _ _ _ Hnew).
  now rewrite (bind_eq _ _ _ _ _ Hrun).
Qed.

End ordered_facts.

Section client_facts.
Context {T : Type} {zero_T : Zero T} {rt : Runtime}.
Implicit Types (σ : mem T) (es xs : list T).

Lemma run_inserts_spec cmp xs : forall σ m es es',
  heap_at σ m cmp es -> Insert_all cmp es xs = Some es' ->
  exists σ', run_calls m (CallInsert <$> xs) σ = Some (tt, σ') /\
             heap_at σ' m cmp es'.
Proof.
  induction xs as [|x xs IH]; intros σ m es es' Hat Hall.
  - injection Hall as <-. exists σ. split; [reflexivity|exact Hat].
  - cbn [Insert_all] in Hall.
    destruct (Insert_elems cmp es x) as [es1|] eqn:H1; [|discriminate].
    cbn [mbind option_bind] in Hall.
    destruct (Insert_spec σ m cmp es x es1 Hat H1) as (σ1 & Hins & Hat1 & _).
    destruct (IH σ1 m es1 es' Hat1 Hall) as (σ' & Hrun & Hat').
    exists σ'. split; [|exact Hat'].
    cbn [fmap list_fmap run_calls run_call].
    now rewrite (bind_eq _ _ _ _ _ Hins).
Qed.

Lemma Remove_times_spec cmp k : forall σ m es out rest,
  heap_at σ m cmp es -> drain_elems cmp k es = Some (out, rest) ->
  exists σ', Remove_times m k σ = Some ((fun v => (v, None)) <$> out, σ') /\
             heap_at σ' m cmp rest.
Proof.
  induction k as [|k IH]; intros σ m es out rest Hat Hdr.
  - injection Hdr as <- <-. exists σ. split; [reflexivity|exact Hat].
  - cbn [drain_elems] in Hdr.
    destruct (Remove_elems cmp es) as [[e es1]|] eqn:Hrm; [|discriminate].
    cbn [mbind option_bind fst snd] in Hdr.
    destruct (drain_elems cmp k es1) as [[d1 d2]|] eqn:Hd; [|discriminate].
    cbn [mbind option_bind fst snd] in Hdr. injection Hdr as <- <-.
    destruct (Remove_spec σ m cmp _ _ _ Hat Hrm) as (σ1 & Hrem & Hat1 & _).
    destruct (IH σ1 m es1 d1 d2 Hat1 Hd) as (σ' & Hrest & Hat').
    exists σ'. split; [|exact Hat'].
    cbn [Remove_times]. rewrite (bind_eq _ _ _ _ _ Hrem).
    now rewrite (bind_eq _ _ _ _ _ Hrest).
Qed.

End client_facts.

(** * The claims *)

Section claims.
Context {T : Type} {zero_T : Zero T} {ord_T : Ordered T} {rt : Runtime}.
Implicit Types (σ : mem T) (es xs : list T).

Lemma ordered_after_ctor (ctor : M T loc) cmp cs σ0 :
  valid_comparator cmp ->
  (exists m σ1, ctor σ0 = Some (m, σ1) /\ heap_at σ1 m cmp []) ->
  ordered_after ctor cmp cs σ0.
Proof.
  intros Hcmp (m & σ1 & Hnew & Hat).
  destruct (run_calls_spec cmp Hcmp cs σ1 m [] Hat (heap_ordered_nil cmp))
    as (σ2 & es & Hrun & Hat2 & Hord).
  now exists m, σ1, σ2, es.
Qed.

(** C1: heap-order invariant preservation. For a heap created by any of
    the three constructors, after any sequence of [Insert] and [Remove]
    calls (so after every call of such a sequence), every index [i] and
    child index [c] in {2i+1, 2i+2} inside the element sequence satisfy
    [compare(elements[i], elements[c]) <= 0] under the heap's own
    comparator. The comparator given to [NewGenericHeap] is a valid one,
    as the spec requires. *)
Theorem heap_order_preserved (comp : T -> T -> Z) (cs : list (call T)) σ0 :
  valid_comparator comp ->
  ordered_after NewMinHeap Compare cs σ0 /\
  ordered_after NewMaxHeap (fun a b => Compare b a) cs σ0 /\
  ordered_after (NewGenericHeap comp) comp cs σ0.
Proof.
  intros Hcomp. split; [|split]; apply ordered_after_ctor.
  - apply Compare_valid.
  - destruct (NewMinHeap_spec σ0) as (m & σ1 & H1 & H2 & _). eauto.
  - apply Compare_flip_valid.
  - destruct (NewMaxHeap_spec σ0) as (m & σ1 & H1 & H2 & _). eauto.
  - exact Hcomp.
  - destruct (NewGenericHeap_spec σ0 comp) as (m & σ1 & H1 & H2 & _). eauto.
Qed.

Lemma first_dominates_ordered cmp es :
  heap_ordered cmp es -> first_dominates cmp es = false.
Proof.
  intros Hord. destruct es as [|a [|b es]]; [reflexivity..|].
  cbn [first_dominates].
  pose proof (Hord 0%nat 1%nat a b (or_introl eq_refl) eq_refl eq_refl) as Hle.
  destruct (Z.gtb_spec (cmp a b) 0); [lia|reflexivity].
Qed.

(** C3: when the element sequences of both arguments are in heap order
    under their own comparators, the guard
    [heap1.compare(heap1.elements[0], heap1.elements[1]) > 0] of
    [CombinarMonticulos] is false, and the heap returned has the natural
    ascending comparator [utils.Compare], whatever the comparators of the
    arguments. *)
Theorem merge_result_is_min_heap σ p1 p2 c1 c2 es1 es2 :
  heap_at σ p1 c1 es1 -> heap_at σ p2 c2 es2 ->
  heap_ordered c1 es1 -> heap_ordered c2 es2 ->
  first_dominates c1 es1 = false /\
  exists r σ' es, CombinarMonticulos p1 p2 σ = Some (r, σ') /\
                  heap_at σ' r Compare es.
Proof.
  intros Hat1 Hat2 Hord1 _.
  pose proof (first_dominates_ordered c1 es1 Hord1) as Hguard.
  split; [exact Hguard|].
  destruct (Insert_all_perm (merged_compare c1 es1) (es1 ++ es2) [])
    as (es & Hall & _).
  destruct (CombinarMonticulos_spec σ p1 p2 c1 c2 es1 es2 es Hat1 Hat2 Hall)
    as (r & σ' & Hrun & Hat & _).
  unfold merged_compare in Hat. rewrite Hguard in Hat.
  now exists r, σ', es.
Qed.

Lemma StronglySorted_weaken (R R' : T -> T -> Prop) (l : list T) :
  (forall a b, R a b -> R' a b) -> StronglySorted R l -> StronglySorted R' l.
Proof.
  intros Himp Hs. induction Hs as [|a l Hs IH Hall]; constructor.
  - exact IH.
  - eapply Forall_impl; [exact Hall|]. intros b. apply Himp.
Qed.

Lemma drains_sorted_ctor (ctor : M T loc) cmp xs fuel σ0 :
  valid_comparator cmp -> (length xs <= fuel)%nat ->
  (exists m σ1, ctor σ0 = Some (m, σ1) /\ heap_at σ1 m cmp []) ->
  drains_sorted ctor (fun a b => cmp a b <= 0) xs fuel σ0.
Proof.
  intros Hcmp Hfuel (m & σ1 & Hnew & Hat).
  destruct (Insert_all_perm cmp xs []) as (es & Hall & Hperm).
  pose proof (Insert_all_ordered cmp Hcmp xs [] es (heap_ordered_nil cmp) Hall)
    as Hord.
  destruct (run_inserts_spec cmp xs σ1 m [] es Hat Hall) as (σ2 & Hrun & Hat2).
  destruct (drain_elems_sorted cmp Hcmp (length es) es eq_refl Hord)
    as (out & Hdr & Hpo & Hsorted).
  assert (length es <= fuel)%nat as Hfuel'
    by (apply Permutation_length in Hperm; simpl in Hperm; lia).
  destruct (RemoveUntilEmpty_spec cmp fuel σ2 m es out Hfuel' Hat2 Hdr)
    as (σ3 & Hrem & Hat3).
  exists m, σ1, σ2, out, σ3. repeat split; try assumption.
  - apply (Size_eq _ _ _ _ Hat3).
  - now rewrite Hpo, Hperm.
Qed.

(** C4: sorted extraction. Insert the elements [xs] one at a time into a
    new heap, then call [Remove] until the heap is empty: the values come
    back as a rearrangement of [xs] that is sorted, ascending (no element
    is followed by a smaller one) for [NewMinHeap], descending (no element
    is followed by a larger one) for [NewMaxHeap]. *)
Theorem sorted_extraction xs (fuel : nat) σ0 :
  (length xs <= fuel)%nat ->
  drains_sorted NewMinHeap (fun a b => less b a = false) xs fuel σ0 /\
  drains_sorted NewMaxHeap (fun a b => less a b = false) xs fuel σ0.
Proof.
  intros Hfuel. split.
  - destruct (drains_sorted_ctor NewMinHeap Compare xs fuel σ0 Compare_valid Hfuel)
      as (m & σ1 & σ2 & out & σ3 & H1 & H2 & H3 & H4 & H5 & H6).
    { destruct (NewMinHeap_spec σ0) as (m & σ1 & H1 & H2 & _). eauto. }
    exists m, σ1, σ2, out, σ3. repeat split; try assumption.
    apply (StronglySorted_weaken _ _ _ (fun a b => proj1 (Compare_le _ _)) H6).
  - destruct (drains_sorted_ctor NewMaxHeap (fun a b => Compare b a) xs fuel σ0
                Compare_flip_valid Hfuel)
      as (m & σ1 & σ2 & out & σ3 & H1 & H2 & H3 & H4 & H5 & H6).
    { destruct (NewMaxHeap_spec σ0) as (m & σ1 & H1 & H2 & _). eauto. }
    exists m, σ1, σ2, out, σ3. repeat split; try assumption.
    apply (StronglySorted_weaken _ _ _ (fun a b => proj1 (Compare_le _ _)) H6).
Qed.

(** C6: [Remove] on a heap with [Size() == 0] returns the zero value of
    [T] with the [EmptyContainer] error and leaves the store, hence the
    element sequence, as it was, so [Size()] is still 0; on a heap with
    [Size() > 0] it returns no error. *)
Theorem Remove_error_handling σ m cmp es :
  heap_at σ m cmp es ->
  match es with
  | [] => Remove m σ = Some ((zero, Some EmptyContainer), σ) /\
          Size m σ = Some (0%nat, σ)
  | _ :: _ => exists x σ', Remove m σ = Some ((x, None), σ')
  end.
Proof.
  intros Hat. destruct es as [|e es].
  - split; [now apply Remove_empty with cmp|apply (Size_eq _ _ _ _ Hat)].
  - destruct (Remove_elems_perm cmp e es) as (es' & Hrm & _).
    destruct (Remove_spec σ m cmp _ _ _ Hat Hrm) as (σ' & Hrem & _).
    eauto.
Qed.

(** C7: [EnesimoMaximo] returns, for every [n], and leaves every array
    and struct of the caller's store as it was; in particular the caller's
    heap has the same elements in the same stored order, and the same
    [Size()], after the call as before, whether the call fails or not. *)
Theorem EnesimoMaximo_no_mutation σ m cmp es (n : Z) :
  heap_at σ m cmp es ->
  exists r σ', EnesimoMaximo m n σ = Some (r, σ') /\
               preserved σ σ' /\
               structs σ' !! m = structs σ !! m /\
               heap_at σ' m cmp es /\
               Size m σ' = Some (length es, σ').
Proof.
  intros Hat.
  assert (exists r σ', EnesimoMaximo m n σ = Some (r, σ') /\ preserved σ σ')
    as (r & σ' & Hrun & Hpres).
  { destruct (decide (1 <= n <= Z.of_nat (length es))) as [Hin|Hout].
    - destruct (drain_elems_Some cmp (Z.to_nat n) es ltac:(lia))
        as (out & rest & Hdr & _).
      destruct (EnesimoMaximo_valid σ m cmp es n out rest Hat Hin Hdr)
        as (σ' & Hrun & Hpres).
      eauto.
    - exists (zero, Some InvalidRank), σ. split; [|apply preserved_refl].
      apply (EnesimoMaximo_invalid σ m cmp es n Hat). lia. }
  pose proof (heap_at_preserved _ _ _ _ _ Hpres Hat) as Hat'.
  exists r, σ'. split; [exact Hrun|]. split; [exact Hpres|].
  split; [|split; [exact Hat'|apply (Size_eq _ _ _ _ Hat')]].
  destruct Hat as (s & Hs & _). rewrite Hs.
  destruct Hpres as [_ Hst]. eapply lookup_weaken; eassumption.
Qed.

(** The rank part of [EnesimoMaximo], for a heap whose elements are in
    heap order under a valid comparator. *)
Lemma EnesimoMaximo_rank σ m cmp es (n : Z) :
  valid_comparator cmp -> heap_at σ m cmp es -> heap_ordered cmp es ->
  rank_validated σ m cmp es n.
Proof.
  intros Hcmp Hat Hord. unfold rank_validated.
  destruct (decide (1 <= n <= Z.of_nat (length es))) as [Hin|Hout].
  - destruct (drain_elems_Some cmp (Z.to_nat n) es ltac:(lia))
      as (out & rest & Hdr & Hlen & _).
    destruct (EnesimoMaximo_valid σ m cmp es n out rest Hat Hin Hdr)
      as (σ' & Hrun & _).
    exists (default zero (last out)), None, σ'.
    split; [exact Hrun|]. split; [split; [discriminate|lia]|].
    split; [tauto|]. intros _.
    destruct (drain_elems_rank cmp Hcmp _ _ _ _ Hord Hdr)
      as (sorted & Hperm & Hsorted & Htake).
    exists sorted. split; [exact Hperm|]. split; [exact Hsorted|].
    assert (last out = Some (default zero (last out))) as Hlast.
    { destruct (last out) eqn:Hl; [reflexivity|].
      apply last_None in Hl. subst out. simpl in Hlen. lia. }
    generalize dependent (default zero (last out)). intros v _ Hlast.
    rewrite last_lookup, Hlen in Hlast. subst out.
    apply lookup_take_Some in Hlast as [Hlk _].
    now replace (Z.to_nat n - 1)%nat with (pred (Z.to_nat n)) by lia.
  - exists zero, (Some InvalidRank), σ.
    split; [apply (EnesimoMaximo_invalid σ m cmp es n Hat); lia|].
    split; [split; [lia|reflexivity]|].
    split; [split; [discriminate|lia]|lia].
Qed.

(** C9: [CombinarMonticulos] returns a heap that did not exist before,
    whose elements are those of both arguments taken together, duplicates
    included, so that its [Size()] is the sum of theirs; every array and
    struct of the caller's store, the two arguments among them, is as it
    was before the call. *)
Theorem CombinarMonticulos_union σ p1 p2 c1 c2 es1 es2 :
  heap_at σ p1 c1 es1 -> heap_at σ p2 c2 es2 ->
  exists r σ' cmp es,
    CombinarMonticulos p1 p2 σ = Some (r, σ') /\
    structs σ !! r = None /\
    heap_at σ' r cmp es /\
    es ≡ₚ es1 ++ es2 /\
    Size r σ' = Some ((length es1 + length es2)%nat, σ') /\
    preserved σ σ' /\
    heap_at σ' p1 c1 es1 /\ heap_at σ' p2 c2 es2.
Proof.
  intros Hat1 Hat2.
  destruct (Insert_all_perm (merged_compare c1 es1) (es1 ++ es2) [])
    as (es & Hall & Hperm).
  destruct (CombinarMonticulos_spec σ p1 p2 c1 c2 es1 es2 es Hat1 Hat2 Hall)
    as (r & σ' & Hrun & Hat & Hpres & Hnew & _).
  exists r, σ', (merged_compare c1 es1), es.
  split; [exact Hrun|]. split; [exact Hnew|]. split; [exact Hat|].
  split; [exact Hperm|]. split; [|split; [exact Hpres|]].
  - rewrite (Size_eq _ _ _ _ Hat). do 2 f_equal.
    apply Permutation_length in Hperm. simpl in Hperm.
    now rewrite Hperm, length_app.
  - split; eapply heap_at_preserved; eassumption.
Qed.

End claims.

(** * The claims on concrete inputs *)

Section concrete.
Context {rt : Runtime}.

Lemma max_heap_built (xs es : list Z) (σ0 : mem Z) :
  Insert_all max_compare [] xs = Some es ->
  exists m σ1 σ2,
    NewMaxHeap σ0 = Some (m, σ1) /\
    run_calls m (CallInsert <$> xs) σ1 = Some (tt, σ2) /\
    heap_at σ2 m max_compare es.
Proof.
  intros Hall.
  destruct (NewMaxHeap_spec σ0) as (m & σ1 & Hnew & Hat & _).
  destruct (run_inserts_spec max_compare xs σ1 m [] es Hat Hall) as (σ2 & Hrun & Hat2).
  now exists m, σ1, σ2.
Qed.

Lemma heap_at_inj (σ : mem Z) m cmp es es' :
  heap_at σ m cmp es -> heap_at σ m cmp es' -> es = es'.
Proof.
  intros (s & Hs & a & Ha & _ & Hes) (s' & Hs' & a' & Ha' & _ & Hes').
  rewrite Hs in Hs'. injection Hs' as <-.
  rewrite Ha in Ha'. injection Ha' as <-. congruence.
Qed.

(** The hypothesis of C1 on the comparator of [NewGenericHeap] cannot be
    dropped: with a function that answers 1 to every question, [Insert]
    never moves an element up, and two insertions leave a parent and a
    child with [compare(parent, child) = 1]. *)
Remark heap_order_needs_valid_comparator (σ0 : mem Z) :
  ~ ordered_after (NewGenericHeap always_greater) always_greater
      [CallInsert 1; CallInsert 2] σ0.
Proof.
  intros (m & σ1 & σ2 & es & Hnew & Hrun & Hat & Hord).
  destruct (NewGenericHeap_spec σ0 always_greater) as (m' & σ1' & Hnew' & Hat1 & _).
  rewrite Hnew in Hnew'. injection Hnew' as <- <-.
  destruct (run_inserts_spec always_greater [1; 2] σ1 m [] [1; 2] Hat1)
    as (σ2' & Hrun' & Hat2); [vm_compute; reflexivity|].
  change (CallInsert <$> [1; 2]) with [CallInsert 1; CallInsert 2] in Hrun'.
  rewrite Hrun in Hrun'. injection Hrun' as <-.
  rewrite (heap_at_inj _ _ _ _ _ Hat Hat2) in Hord.
  specialize (Hord 0%nat 1%nat 1 2 (or_introl eq_refl) eq_refl eq_refl).
  unfold always_greater in Hord. lia.
Qed.

(** C5: inserting 44, 29, 58, 2, 98, 11, 65, 3, 68, 99 in that order into
    a heap created by [NewMaxHeap] leaves the element sequence equal to
    [99, 98, 65, 58, 68, 11, 44, 2, 3, 29], and ten calls of [Remove] then
    return 99, 98, 68, 65, 58, 44, 29, 11, 3, 2, each without error. *)
Theorem max_heap_round_trip (σ0 : mem Z) :
  exists m σ1 σ2 σ3,
    NewMaxHeap σ0 = Some (m, σ1) /\
    run_calls m (CallInsert <$> [44; 29; 58; 2; 98; 11; 65; 3; 68; 99]) σ1
    = Some (tt, σ2) /\
    heap_at σ2 m (fun a b => Compare b a) [99; 98; 65; 58; 68; 11; 44; 2; 3; 29] /\
    Remove_times m 10 σ2
    = Some ([(99, None); (98, None); (68, None); (65, None); (58, None);
             (44, None); (29, None); (11, None); (3, None); (2, None)], σ3).
Proof.
  destruct (max_heap_built [44; 29; 58; 2; 98; 11; 65; 3; 68; 99]
              [99; 98; 65; 58; 68; 11; 44; 2; 3; 29] σ0)
    as (m & σ1 & σ2 & Hnew & Hrun & Hat); [vm_compute; reflexivity|].
  destruct (Remove_times_spec max_compare 10 σ2 m _
              [99; 98; 68; 65; 58; 44; 29; 11; 3; 2] [] Hat)
    as (σ3 & Hrem & _); [vm_compute; reflexivity|].
  now exists m, σ1, σ2, σ3.
Qed.

(** C8: [EnesimoMaximo] fails with [InvalidRank] exactly when [n < 1] or
    [n > Size()], so on an empty heap for every [n >= 1]; for
    [1 <= n <= Size()] it returns without error the [n]-th element in
    priority order. On the max-heap that received 3, 1, 6, 5, 2, 4 it
    returns 4 for [n = 3] and fails with [InvalidRank] for [n = 7]. *)
Theorem EnesimoMaximo_rank_validation :
  (forall (T : Type) (zero_T : Zero T)
          (σ : mem T) (m : loc) (cmp : T -> T -> Z) (es : list T) (n : Z),
      valid_comparator cmp -> heap_at σ m cmp es -> heap_ordered cmp es ->
      rank_validated σ m cmp es n) /\
  (forall (T : Type) (zero_T : Zero T)
          (σ : mem T) (m : loc) (cmp : T -> T -> Z) (n : Z),
      heap_at σ m cmp [] -> 1 <= n ->
      EnesimoMaximo m n σ = Some ((zero, Some InvalidRank), σ)) /\
  (forall σ0 : mem Z,
      exists m σ1 σ2 σ3,
        NewMaxHeap σ0 = Some (m, σ1) /\
        run_calls m (CallInsert <$> [3; 1; 6; 5; 2; 4]) σ1 = Some (tt, σ2) /\
        EnesimoMaximo m 3 σ2 = Some ((4, None), σ3) /\
        EnesimoMaximo m 7 σ2 = Some ((zero, Some InvalidRank), σ2)).
Proof.
  split; [|split].
  - intros T zero_T σ m cmp es n. apply EnesimoMaximo_rank.
  - intros T zero_T σ m cmp n Hat Hn.
    apply (EnesimoMaximo_invalid σ m cmp [] n Hat). simpl. lia.
  - intros σ0.
    destruct (max_heap_built [3; 1; 6; 5; 2; 4] [6; 5; 4; 1; 2; 3] σ0)
      as (m & σ1 & σ2 & Hnew & Hrun & Hat); [vm_compute; reflexivity|].
    destruct (EnesimoMaximo_valid σ2 m max_compare _ 3 [6; 5; 4] [3; 1; 2] Hat)
      as (σ3 & H3 & _); [simpl; lia|vm_compute; reflexivity|].
    exists m, σ1, σ2, σ3. split; [exact Hnew|]. split; [exact Hrun|].
    split; [exact H3|].
    apply (EnesimoMaximo_invalid σ2 m max_compare _ 7 Hat). simpl. lia.
Qed.

(** C10: [NuevoMonticuloMaxDesdeArreglo] applied to a slice holding
    3, 1, 6, 5, 2, 4 returns a heap of [Size()] 6 whose elements are
    1, 2, 3, 4, 5, 6 in some order, every element being at least as large
    as its children; applied to an empty slice it returns a heap of
    [Size()] 0. *)
Theorem NuevoMonticuloMaxDesdeArreglo_builds (σ : mem Z) (arr arr0 : slice) :
  slice_at σ arr [3; 1; 6; 5; 2; 4] -> slice_at σ arr0 [] ->
  (exists r σ' es,
      NuevoMonticuloMaxDesdeArreglo arr σ = Some (r, σ') /\
      heap_at σ' r (fun a b => Compare b a) es /\
      Size r σ' = Some (6%nat, σ') /\
      es ≡ₚ [1; 2; 3; 4; 5; 6] /\
      heap_ordered (fun a b => Compare b a) es /\
      (forall i c x y, child i c -> es !! i = Some x -> es !! c = Some y -> y <= x)) /\
  (exists r σ',
      NuevoMonticuloMaxDesdeArreglo arr0 σ = Some (r, σ') /\
      heap_at σ' r (fun a b => Compare b a) [] /\
      Size r σ' = Some (0%nat, σ')).
Proof.
  intros Harr Harr0. split.
  - destruct (Insert_all_perm max_compare [3; 1; 6; 5; 2; 4] []) as (es & Hall & Hperm).
    destruct (NuevoMonticuloMaxDesdeArreglo_spec σ arr _ es Harr Hall)
      as (r & σ' & Hrun & Hat & _).
    pose proof (Insert_all_ordered max_compare Compare_flip_valid _ _ _
                  (heap_ordered_nil _) Hall) as Hord.
    exists r, σ', es. split; [exact Hrun|]. split; [exact Hat|].
    split; [|split; [|split; [exact Hord|]]].
    + rewrite (Size_eq _ _ _ _ Hat). do 2 f_equal.
      now rewrite (Permutation_length Hperm).
    + rewrite Hperm. simpl.
      apply (Permutation_trans (l' := [1; 3; 6; 5; 2; 4])); [apply perm_swap|].
      apply perm_skip.
      change [3; 6; 5; 2; 4] with ([3; 6; 5] ++ 2 :: [4]).
      rewrite <- Permutation_middle. apply perm_skip. apply perm_skip.
      change [6; 5; 4] with ([6; 5] ++ 4 :: []).
      rewrite <- Permutation_middle. apply perm_skip.
      apply perm_swap.
    + intros i c x y Hc Hx Hy.
      pose proof (Hord i c x y Hc Hx Hy) as Hle.
      apply Compare_le in Hle. simpl in Hle. now apply Z.ltb_ge in Hle.
  - destruct (NuevoMonticuloMaxDesdeArreglo_spec σ arr0 [] [] Harr0 eq_refl)
      as (r & σ' & Hrun & Hat & _).
    exists r, σ'. split; [exact Hrun|]. split; [exact Hat|].
    apply (Size_eq _ _ _ _ Hat).
Qed.

End concrete.

(** C2: the merge of two max-heaps is not max-ordered. On the
    repository's own test input (7, 5, 3 and 6, 4, 2 inserted into two
    heaps made by [NewMaxHeap]) [CombinarMonticulos] returns a heap with
    the ascending comparator and elements [2, 4, 3, 7, 6, 5], and
    [compare(elements[0], elements[1])] is -1, where the test asserts a
    value [>= 0]. *)
Theorem merge_of_max_heaps_is_min_ordered :
  fst <$> TestCombinarMonticulos_MaxHeapYMaxHeap (H := doubling) (Mem ∅ ∅)
  = Some ([2; 4; 3; 7; 6; 5], -1).
Proof. vm_compute. reflexivity. Qed.

(** * The theorems at work on a concrete store *)

Lemma demo_heap_1 : heap_at demo_store 1%positive max_compare [7; 5; 3].
Proof.
  exists (Slice 1%positive 0 3). split; [reflexivity|].
  exists [7; 5; 3; 0]. split; [reflexivity|]. split; [simpl; lia|reflexivity].
Qed.

Lemma demo_heap_2 : heap_at demo_store 2%positive Compare [2; 4; 6].
Proof.
  exists (Slice 2%positive 0 3). split; [reflexivity|].
  exists [2; 4; 6]. split; [reflexivity|]. split; [simpl; lia|reflexivity].
Qed.

Lemma demo_heap_3 : heap_at demo_store 3%positive Compare [].
Proof.
  exists (Slice 4%positive 0 0). split; [reflexivity|].
  exists []. split; [reflexivity|]. split; [simpl; lia|reflexivity].
Qed.

Lemma demo_ordered_1 : heap_ordered max_compare [7; 5; 3].
Proof.
  intros i c x y Hc Hx Hy. apply lookup_lt_Some in Hy as Hlt. simpl in Hlt.
  unfold child in Hc. assert (i = 0%nat) as -> by lia.
  destruct Hc as [-> | ->]; simpl in Hx, Hy; simplify_eq; vm_compute; discriminate.
Qed.

Lemma demo_ordered_2 : heap_ordered (Compare (T := Z)) [2; 4; 6].
Proof.
  intros i c x y Hc Hx Hy. apply lookup_lt_Some in Hy as Hlt. simpl in Hlt.
  unfold child in Hc. assert (i = 0%nat) as -> by lia.
  destruct Hc as [-> | ->]; simpl in Hx, Hy; simplify_eq; vm_compute; discriminate.
Qed.

Lemma demo_slice : slice_at demo_store (Slice 3%positive 0 6) [3; 1; 6; 5; 2; 4].
Proof.
  exists [3; 1; 6; 5; 2; 4]. split; [reflexivity|]. split; [simpl; lia|reflexivity].
Qed.

Lemma demo_slice_empty : slice_at demo_store (Slice 4%positive 0 0) ([] : list Z).
Proof.
  exists []. split; [reflexivity|]. split; [simpl; lia|reflexivity].
Qed.

Lemma heap_order_preserved_witness :
  valid_comparator (Compare (T := Z)) /\
  (ordered_after (H0 := doubling) NewMinHeap Compare
     [CallInsert 3; CallInsert 1; CallRemove; CallInsert 2] (Mem ∅ ∅) /\
   ordered_after (H0 := doubling) NewMaxHeap (fun a b => Compare b a)
     [CallInsert 3; CallInsert 1; CallRemove; CallInsert 2] (Mem ∅ ∅) /\
   ordered_after (H0 := doubling) (NewGenericHeap Compare) Compare
     [CallInsert 3; CallInsert 1; CallRemove; CallInsert 2] (Mem ∅ ∅)).
Proof.
  split; [apply Compare_valid|].
  apply (heap_order_preserved (rt := doubling) Compare). apply Compare_valid.
Defined.

Lemma merge_result_is_min_heap_witness :
  heap_at demo_store 1%positive max_compare [7; 5; 3] /\
  heap_at demo_store 2%positive Compare [2; 4; 6] /\
  heap_ordered max_compare [7; 5; 3] /\
  heap_ordered (Compare (T := Z)) [2; 4; 6] /\
  (first_dominates max_compare [7; 5; 3] = false /\
   exists r σ' es,
     CombinarMonticulos (rt := doubling) 1%positive 2%positive demo_store
     = Some (r, σ') /\
     heap_at σ' r Compare es).
Proof.
  split; [exact demo_heap_1|]. split; [exact demo_heap_2|].
  split; [exact demo_ordered_1|]. split; [exact demo_ordered_2|].
  exact (merge_result_is_min_heap (rt := doubling) demo_store 1%positive 2%positive
           max_compare Compare [7; 5; 3] [2; 4; 6]
           demo_heap_1 demo_heap_2 demo_ordered_1 demo_ordered_2).
Defined.

Lemma sorted_extraction_witness :
  (length [3; 1; 2] <= 3)%nat /\
  (drains_sorted (H0 := doubling) NewMinHeap (fun a b : Z => less b a = false)
     [3; 1; 2] 3 (Mem ∅ ∅) /\
   drains_sorted (H0 := doubling) NewMaxHeap (fun a b : Z => less a b = false)
     [3; 1; 2] 3 (Mem ∅ ∅)).
Proof.
  split; [simpl; lia|].
  apply (sorted_extraction (rt := doubling) [3; 1; 2] 3 (Mem ∅ ∅)). simpl. lia.
Defined.

Lemma Remove_error_handling_witness :
  heap_at demo_store 3%positive Compare [] /\
  heap_at demo_store 1%positive max_compare [7; 5; 3] /\
  (Remove 3%positive demo_store = Some ((zero, Some EmptyContainer), demo_store) /\
   Size 3%positive demo_store = Some (0%nat, demo_store)) /\
  (exists x σ', Remove 1%positive demo_store = Some ((x, None), σ')).
Proof.
  split; [exact demo_heap_3|]. split; [exact demo_heap_1|]. split.
  - exact (Remove_error_handling demo_store 3%positive Compare [] demo_heap_3).
  - exact (Remove_error_handling demo_store 1%positive max_compare [7; 5; 3]
             demo_heap_1).
Defined.

Lemma EnesimoMaximo_no_mutation_witness :
  heap_at demo_store 1%positive max_compare [7; 5; 3] /\
  exists r σ',
    EnesimoMaximo 1%positive 2 demo_store = Some (r, σ') /\
    preserved demo_store σ' /\
    structs σ' !! 1%positive = structs demo_store !! 1%positive /\
    heap_at σ' 1%positive max_compare [7; 5; 3] /\
    Size 1%positive σ' = Some (3%nat, σ').
Proof.
  split; [exact demo_heap_1|].
  exact (EnesimoMaximo_no_mutation demo_store 1%positive
           max_compare [7; 5; 3] 2 demo_heap_1).
Defined.

Lemma EnesimoMaximo_rank_validation_witness :
  valid_comparator max_compare /\
  heap_at demo_store 1%positive max_compare [7; 5; 3] /\
  heap_ordered max_compare [7; 5; 3] /\
  rank_validated demo_store 1%positive max_compare [7; 5; 3] 2.
Proof.
  split; [exact Compare_flip_valid|]. split; [exact demo_heap_1|].
  split; [exact demo_ordered_1|].
  exact (proj1 (EnesimoMaximo_rank_validation (rt := doubling)) Z _ demo_store
           1%positive max_compare [7; 5; 3] 2
           Compare_flip_valid demo_heap_1 demo_ordered_1).
Defined.

Lemma CombinarMonticulos_union_witness :
  heap_at demo_store 1%positive max_compare [7; 5; 3] /\
  heap_at demo_store 2%positive Compare [2; 4; 6] /\
  exists r σ' cmp es,
    CombinarMonticulos (rt := doubling) 1%positive 2%positive demo_store
    = Some (r, σ') /\
    structs demo_store !! r = None /\
    heap_at σ' r cmp es /\
    es ≡ₚ [7; 5; 3] ++ [2; 4; 6] /\
    Size r σ' = Some ((3 + 3)%nat, σ') /\
    preserved demo_store σ' /\
    heap_at σ' 1%positive max_compare [7; 5; 3] /\
    heap_at σ' 2%positive Compare [2; 4; 6].
Proof.
  split; [exact demo_heap_1|]. split; [exact demo_heap_2|].
  exact (CombinarMonticulos_union (rt := doubling) demo_store 1%positive 2%positive
           max_compare Compare [7; 5; 3] [2; 4; 6] demo_heap_1 demo_heap_2).
Defined.

Lemma NuevoMonticuloMaxDesdeArreglo_builds_witness :
  slice_at demo_store (Slice 3%positive 0 6) [3; 1; 6; 5; 2; 4] /\
  slice_at demo_store (Slice 4%positive 0 0) ([] : list Z) /\
  exists r σ',
    NuevoMonticuloMaxDesdeArreglo (rt := doubling) (Slice 4%positive 0 0) demo_store
    = Some (r, σ') /\
    heap_at σ' r (fun a b => Compare b a) [] /\
    Size r σ' = Some (0%nat, σ').
Proof.
  split; [exact demo_slice|]. split; [exact demo_slice_empty|].
  exact (proj2 (NuevoMonticuloMaxDesdeArreglo_builds (rt := doubling) demo_store
                  (Slice 3%positive 0 6) (Slice 4%positive 0 0)
                  demo_slice demo_slice_empty)).
Defined.

(** * Further properties of the methods *)

Section methods.
Context {T : Type} {zero_T : Zero T} {rt : Runtime}.
Implicit Types (σ : mem T) (es xs : list T).

Lemma private_empty σ m : private (Mem ∅ ∅) σ m.
Proof.
  split; [split; apply map_empty_subseteq|]. split; [apply lookup_empty|].
  intros h _. apply lookup_empty.
Qed.

(** [Insert] on any heap, whatever its comparator: it returns, [Size()]
    grows by one, and the elements are the old ones and the new one. *)
Theorem Insert_effect σ m cmp es x :
  heap_at σ m cmp es ->
  exists σ' es',
    Insert m x σ = Some (tt, σ') /\
    heap_at σ' m cmp es' /\
    es' ≡ₚ x :: es /\
    Size m σ' = Some (S (length es), σ').
Proof.
  intros Hat.
  destruct (Insert_elems_perm cmp es x) as (es' & Hins & Hperm).
  destruct (Insert_spec σ m cmp es x es' Hat Hins) as (σ' & Hrun & Hat' & _).
  exists σ', es'. split; [exact Hrun|]. split; [exact Hat'|]. split; [exact Hperm|].
  rewrite (Size_eq _ _ _ _ Hat'). now rewrite (Permutation_length Hperm).
Qed.

(** [Remove] on any non-empty heap, whatever its comparator: it returns
    [elements[0]] without error, [Size()] shrinks by one, and the elements
    left are the others. *)
Theorem Remove_effect σ m cmp e es :
  heap_at σ m cmp (e :: es) ->
  exists σ' es',
    Remove m σ = Some ((e, None), σ') /\
    heap_at σ' m cmp es' /\
    es' ≡ₚ es /\
    Size m σ' = Some (length es, σ').
Proof.
  intros Hat.
  destruct (Remove_elems_perm cmp e es) as (es' & Hrm & Hperm).
  destruct (Remove_spec σ m cmp _ _ _ Hat Hrm) as (σ' & Hrun & Hat' & _).
  exists σ', es'. split; [exact Hrun|]. split; [exact Hat'|]. split; [exact Hperm|].
  rewrite (Size_eq _ _ _ _ Hat'). now rewrite (Permutation_length Hperm).
Qed.

(** On a heap in heap order under a valid comparator, [Remove] returns an
    element that compares [<= 0] with every element left, and leaves the
    heap in heap order. *)
Theorem Remove_returns_first cmp σ m e es :
  valid_comparator cmp -> heap_at σ m cmp (e :: es) -> heap_ordered cmp (e :: es) ->
  exists σ' es',
    Remove m σ = Some ((e, None), σ') /\
    heap_at σ' m cmp es' /\
    Forall (fun x => cmp e x <= 0) es' /\
    heap_ordered cmp es'.
Proof.
  intros Hcmp Hat Hord.
  destruct (Remove_elems_perm cmp e es) as (es' & Hrm & _).
  destruct (Remove_spec σ m cmp _ _ _ Hat Hrm) as (σ' & Hrun & Hat' & _).
  exists σ', es'. split; [exact Hrun|]. split; [exact Hat'|]. split.
  - eapply Remove_elems_root; eassumption.
  - eapply Remove_elems_ordered; eassumption.
Qed.

Lemma run_calls_frame cmp cs : forall σ0 σ m es,
  heap_at σ m cmp es -> private σ0 σ m ->
  exists σ' es',
    run_calls m cs σ = Some (tt, σ') /\
    heap_at σ' m cmp es' /\
    private σ0 σ' m /\
    es' ⊆+ es ++ inserted cs.
Proof.
  induction cs as [|c cs IH]; intros σ0 σ m es Hat Hpriv.
  - exists σ, es. split; [reflexivity|]. split; [exact Hat|]. split; [exact Hpriv|].
    now rewrite app_nil_r.
  - cbn [run_calls]. destruct c as [x|]; cbn [run_call].
    + destruct (Insert_elems_perm cmp es x) as (es1 & H1 & Hp1).
      destruct (Insert_spec σ m cmp es x es1 Hat H1) as (σ1 & Hins & Hat1 & Hfr).
      destruct (IH σ0 σ1 m es1 Hat1 (Hfr _ Hpriv)) as (σ' & es' & Hrun & Hat' & Hpriv' & Hsub).
      exists σ', es'. split; [now rewrite (bind_eq _ _ _ _ _ Hins)|].
      split; [exact Hat'|]. split; [exact Hpriv'|].
      change (inserted (CallInsert x :: cs)) with (x :: inserted cs).
      rewrite Hp1 in Hsub. rewrite <- Permutation_middle. exact Hsub.
    + change (inserted (CallRemove :: cs)) with (inserted cs).
      destruct es as [|e es0].
      * destruct (IH σ0 σ m [] Hat Hpriv) as (σ' & es' & Hrun & Hat' & Hpriv' & Hsub).
        exists σ', es'. split; [|split; [exact Hat'|split; assumption]].
        erewrite bind_eq; [exact Hrun|].
        now rewrite (bind_eq _ _ _ _ _ (Remove_empty _ _ _ Hat)).
      * destruct (Remove_elems_perm cmp e es0) as (es1 & Hrm & Hp1).
        destruct (Remove_spec σ m cmp _ _ _ Hat Hrm) as (σ1 & Hrem & Hat1 & Hfr).
        destruct (IH σ0 σ1 m es1 Hat1 (Hfr _ Hpriv))
          as (σ' & es' & Hrun & Hat' & Hpriv' & Hsub).
        exists σ', es'. split; [|split; [exact Hat'|split; [exact Hpriv'|]]].
        -- erewrite bind_eq; [exact Hrun|].
           now rewrite (bind_eq _ _ _ _ _ Hrem).
        -- rewrite Hp1 in Hsub. etransitivity; [exact Hsub|].
           apply submseteq_skips_r, submseteq_cons. reflexivity.
Qed.

(** Whatever calls a heap receives, it never holds anything but what it
    held before and what was inserted, each at most as many times. *)
Theorem heap_holds_only_inserted σ m cmp es cs :
  heap_at σ m cmp es ->
  exists σ' es',
    run_calls m cs σ = Some (tt, σ') /\
    heap_at σ' m cmp es' /\
    es' ⊆+ es ++ inserted cs.
Proof.
  intros Hat.
  destruct (run_calls_frame cmp cs (Mem ∅ ∅) σ m es Hat (private_empty σ m))
    as (σ' & es' & Hrun & Hat' & _ & Hsub).
  now exists σ', es'.
Qed.

(** Calls on one heap never change another heap that shares no storage
    with it, and the two still share no storage afterwards. *)
Theorem heaps_apart_stay_apart σ m1 m2 c1 c2 es1 es2 cs :
  heap_at σ m1 c1 es1 -> heap_at σ m2 c2 es2 -> apart σ m1 m2 ->
  exists σ' es1',
    run_calls m1 cs σ = Some (tt, σ') /\
    heap_at σ' m1 c1 es1' /\
    heap_at σ' m2 c2 es2 /\
    structs σ' !! m2 = structs σ !! m2 /\
    apart σ' m1 m2.
Proof.
  intros Hat1 Hat2 [Hne Hbase].
  pose proof Hat1 as (s1 & Hs1 & Hsl1). pose proof Hat2 as (s2 & Hs2 & a2 & Ha2 & Hle2 & Hes2).
  pose proof (Hbase _ _ Hs1 Hs2) as Hb. cbn [elements] in Hb.
  set (σ0 := Mem (delete (base s1) (arrays σ)) (delete m1 (structs σ))).
  assert (private σ0 σ m1) as Hpriv.
  { split; [split; apply delete_subseteq|]. split; [apply lookup_delete_eq|].
    intros h Hh. rewrite Hs1 in Hh. injection Hh as <-. apply lookup_delete_eq. }
  assert (structs σ0 !! m2 = Some (mkHeap s2 c2)) as Hs2'
    by (simpl; rewrite lookup_delete_ne by exact Hne; exact Hs2).
  assert (arrays σ0 !! base s2 = Some a2) as Ha2'
    by (simpl; rewrite lookup_delete_ne by exact Hb; exact Ha2).
  destruct (run_calls_frame c1 cs σ0 σ m1 es1 Hat1 Hpriv)
    as (σ' & es1' & Hrun & Hat1' & Hpriv' & _).
  destruct Hpriv' as ((Harr & Hst) & _ & Hfresh).
  assert (structs σ' !! m2 = Some (mkHeap s2 c2)) as Hs2''
    by (eapply lookup_weaken; eassumption).
  exists σ', es1'. split; [exact Hrun|]. split; [exact Hat1'|]. split; [|split].
  - exists s2. split; [exact Hs2''|]. exists a2.
    split; [eapply lookup_weaken; eassumption|now split].
  - now rewrite Hs2'', Hs2.
  - split; [exact Hne|]. intros h1 h2 Hh1 Hh2 Heq.
    rewrite Hs2'' in Hh2. injection Hh2 as <-. cbn [elements] in Heq.
    pose proof (Hfresh _ Hh1) as Hnone. rewrite Heq, Ha2' in Hnone. discriminate.
Qed.


(** [upHeap] panics exactly when it starts from an index that is neither
    0 nor inside the slice; otherwise it returns and only permutes the
    elements. *)
Theorem upHeap_bounds σ m cmp es (i : nat) :
  heap_at σ m cmp es ->
  (upHeap m i σ = None <-> (0 < i /\ length es <= i)%nat) /\
  ((i < length es \/ i = 0)%nat ->
   exists σ' es',
     upHeap m i σ = Some (tt, σ') /\ heap_at σ' m cmp es' /\ es' ≡ₚ es).
Proof.
  intros Hat.
  assert ((i < length es \/ i = 0)%nat ->
          exists σ' es',
            upHeap m i σ = Some (tt, σ') /\ heap_at σ' m cmp es' /\ es' ≡ₚ es) as Hok.
  { intros Hi. destruct (upHeap_elems_perm cmp i es Hi) as (es' & Hup & Hperm).
    destruct (loop_spec upHeap_elems σ m cmp es i es' Hat Hup
                (Permutation_length Hperm)) as (σ' & Hrun & Hat' & _).
    now exists σ', es'. }
  split; [|exact Hok]. split.
  - intros Hnone. destruct (decide (i < length es \/ i = 0)%nat) as [Hi|Hi]; [|lia].
    destruct (Hok Hi) as (σ' & es' & Hrun & _). rewrite Hrun in Hnone. discriminate.
  - intros [Hpos Hge]. destruct Hat as (s & Hs & Hsl). unfold upHeap.
    rewrite (bind_eq _ _ _ _ _ (load_eq _ _ _ Hs)). cbn [elements compare].
    rewrite (bind_eq _ _ _ _ _ (read_slice_eq _ _ _ Hsl)).
    rewrite upHeap_elems_eq. destruct (decide (0 < i)%nat); [|lia].
    now rewrite (lookup_ge_None_2 es i Hge).
Qed.

Lemma upHeap_elems_rises cmp (x : T) i : forall es,
  es !! i = Some x ->
  (forall j y, j <> i -> es !! j = Some y -> cmp x y <= 0) ->
  exists es', upHeap_elems cmp es i = Some es' /\ es' !! 0%nat = Some x.
Proof.
  induction i as [i IH] using lt_wf_ind. intros es Hx Hall.
  rewrite upHeap_elems_eq. destruct (decide (0 < i)%nat) as [Hpos|Hz].
  2: { exists es. split; [reflexivity|]. now replace 0%nat with i by lia. }
  pose proof (parent_child i Hpos) as Hpc.
  assert (((i - 1) / 2) < i)%nat as Hlt by (unfold child in Hpc; lia).
  remember ((i - 1) / 2)%nat as par eqn:Hpar. clear Hpar.
  apply lookup_lt_Some in Hx as Hi.
  destruct (lookup_lt_is_Some_2 es par ltac:(lia)) as [p Hp].
  rewrite Hx, Hp. cbn [mbind option_bind].
  pose proof (Hall par p ltac:(lia) Hp) as Hle.
  destruct (Z.gtb_spec (cmp x p) 0) as [Hgt|_]; [lia|].
  destruct (swap es i par) as [es1|] eqn:Hsw.
  2: { rewrite (swap_Some _ _ _ _ _ Hx Hp) in Hsw. discriminate. }
  cbn [mbind option_bind]. apply IH; [exact Hlt| |].
  - rewrite (swap_lookup _ _ _ _ par Hsw). now rewrite decide_True by reflexivity.
  - intros j y Hj Hy. rewrite (swap_lookup _ _ _ _ j Hsw) in Hy.
    rewrite decide_False in Hy by exact Hj.
    destruct (decide (j = i)) as [->|Hji].
    + rewrite Hp in Hy. injection Hy as <-. exact Hle.
    + now apply (Hall j y Hji).
Qed.

(** An element that compares [<= 0] with every element of the heap goes
    to the root when it is inserted, and the next [Remove] returns it. No
    assumption is made on the comparator or on the order of the heap. *)
Theorem Insert_first_then_Remove σ m cmp es x :
  heap_at σ m cmp es -> Forall (fun y => cmp x y <= 0) es ->
  exists σ1 es1 σ2,
    Insert m x σ = Some (tt, σ1) /\
    heap_at σ1 m cmp es1 /\
    es1 !! 0%nat = Some x /\
    Remove m σ1 = Some ((x, None), σ2).
Proof.
  intros Hat Hall.
  destruct (upHeap_elems_rises cmp x (length (es ++ [x]) - 1) (es ++ [x]))
    as (es1 & Hup & Hroot).
  - rewrite length_app, Nat.add_sub. rewrite lookup_app_r by lia.
    now rewrite Nat.sub_diag.
  - rewrite length_app, Nat.add_sub. intros j y Hj Hy.
    apply lookup_lt_Some in Hy as Hlt. rewrite length_app in Hlt. simpl in Hlt.
    rewrite lookup_app_l in Hy by lia.
    rewrite Forall_forall in Hall. apply Hall.
    apply list_elem_of_lookup. eauto.
  - destruct (Insert_spec σ m cmp es x es1 Hat Hup) as (σ1 & Hins & Hat1 & _).
    destruct es1 as [|e es1]; [discriminate|]. injection Hroot as ->.
    destruct (Remove_elems_perm cmp x es1) as (es2 & Hrm & _).
    destruct (Remove_spec σ1 m cmp _ _ _ Hat1 Hrm) as (σ2 & Hrem & _).
    exists σ1, (x :: es1), σ2. now repeat split.
Qed.

End methods.

(** * Further properties of the constructors and of the derived functions *)

Section derived.
Context {T : Type} {zero_T : Zero T} {ord_T : Ordered T} {rt : Runtime}.
Implicit Types (σ : mem T) (es xs : list T).

Lemma independent_after_ctor (ctor : M T loc) cmp cs σ0 :
  (exists m σ1, ctor σ0 = Some (m, σ1) /\ heap_at σ1 m cmp [] /\ private σ0 σ1 m) ->
  independent_after ctor cs σ0.
Proof.
  intros (m & σ1 & Hnew & Hat & Hpriv).
  destruct (run_calls_frame cmp cs σ0 σ1 m [] Hat Hpriv)
    as (σ2 & es & Hrun & _ & Hpriv2 & _).
  exists m, σ1, σ2. split; [exact Hnew|]. split; [apply Hpriv|].
  split; [apply (Size_eq _ _ _ _ Hat)|]. split; [exact Hrun|apply Hpriv2].
Qed.

(** Each constructor returns a heap that did not exist before, with
    [Size()] 0, and no sequence of calls on that heap changes an array or
    a struct that existed before it. *)
Theorem new_heap_is_independent (comp : T -> T -> Z) (cs : list (call T)) σ0 :
  independent_after NewMinHeap cs σ0 /\
  independent_after NewMaxHeap cs σ0 /\
  independent_after (NewGenericHeap comp) cs σ0.
Proof.
  split; [|split].
  - apply (independent_after_ctor _ Compare). apply NewMinHeap_spec.
  - apply (independent_after_ctor _ (fun a b => Compare b a)). apply NewMaxHeap_spec.
  - apply (independent_after_ctor _ comp). apply NewGenericHeap_spec.
Qed.

(** [NuevoMonticuloMaxDesdeArreglo] on any slice: the heap returned is
    new, holds exactly the elements of the slice, is in heap order for the
    inverted comparator, and has at its root an element that none of the
    slice exceeds; the slice and the rest of the store are left as they
    were. *)
Theorem NuevoMonticuloMaxDesdeArreglo_any σ arr xs :
  slice_at σ arr xs ->
  exists r σ' es,
    NuevoMonticuloMaxDesdeArreglo arr σ = Some (r, σ') /\
    structs σ !! r = None /\
    heap_at σ' r (fun a b => Compare b a) es /\
    es ≡ₚ xs /\
    Size r σ' = Some (length xs, σ') /\
    heap_ordered (fun a b => Compare b a) es /\
    (forall e x, es !! 0%nat = Some e -> x ∈ xs -> less e x = false) /\
    preserved σ σ' /\
    slice_at σ' arr xs.
Proof.
  intros Hsl.
  destruct (Insert_all_perm (fun a b : T => Compare b a) xs []) as (es & Hall & Hperm).
  simpl in Hperm.
  destruct (NuevoMonticuloMaxDesdeArreglo_spec σ arr xs es Hsl Hall)
    as (r & σ' & Hrun & Hat & Hpres & Hnew & _).
  pose proof (Insert_all_ordered _ Compare_flip_valid _ _ _
                (heap_ordered_nil _) Hall) as Hord.
  exists r, σ', es. split; [exact Hrun|]. split; [exact Hnew|]. split; [exact Hat|].
  split; [exact Hperm|]. split; [|split; [exact Hord|split; [|split]]].
  - rewrite (Size_eq _ _ _ _ Hat). now rewrite (Permutation_length Hperm).
  - intros e x He Hx. rewrite <- Hperm in Hx.
    apply list_elem_of_lookup in Hx as [j Hj].
    pose proof (root_least _ Compare_flip_valid es e Hord He j x Hj) as Hle.
    now apply Compare_le in Hle.
  - exact Hpres.
  - eapply slice_at_preserved; eassumption.
Qed.

Lemma merged_compare_valid (cmp : T -> T -> Z) es :
  valid_comparator (merged_compare cmp es).
Proof.
  unfold merged_compare. destruct (first_dominates cmp es).
  - apply Compare_flip_valid.
  - apply Compare_valid.
Qed.

(** The heap returned by [CombinarMonticulos] is in heap order under its
    own comparator, which is the natural one or its inverse, whatever the
    two arguments hold; in particular its first two elements satisfy
    [compare(elements[0], elements[1]) <= 0]. *)
Theorem CombinarMonticulos_ordered σ p1 p2 c1 c2 es1 es2 :
  heap_at σ p1 c1 es1 -> heap_at σ p2 c2 es2 ->
  exists r σ' cmp es,
    CombinarMonticulos p1 p2 σ = Some (r, σ') /\
    heap_at σ' r cmp es /\
    (cmp = Compare \/ cmp = fun a b => Compare b a) /\
    heap_ordered cmp es /\
    (forall a b, es !! 0%nat = Some a -> es !! 1%nat = Some b -> cmp a b <= 0).
Proof.
  intros Hat1 Hat2.
  destruct (Insert_all_perm (merged_compare c1 es1) (es1 ++ es2) [])
    as (es & Hall & _).
  destruct (CombinarMonticulos_spec σ p1 p2 c1 c2 es1 es2 es Hat1 Hat2 Hall)
    as (r & σ' & Hrun & Hat & _).
  pose proof (Insert_all_ordered _ (merged_compare_valid c1 es1) _ _ _
                (heap_ordered_nil _) Hall) as Hord.
  exists r, σ', (merged_compare c1 es1), es.
  split; [exact Hrun|]. split; [exact Hat|]. split; [|split; [exact Hord|]].
  - unfold merged_compare. destruct (first_dominates c1 es1); [now right|now left].
  - intros a b Ha Hb. apply (Hord 0%nat 1%nat a b); [now left|exact Ha|exact Hb].
Qed.

(** The heap returned by [CombinarMonticulos] shares nothing with its
    arguments: whatever calls it receives afterwards, both arguments, and
    everything else that existed before the merge, stay as they were. *)
Theorem CombinarMonticulos_result_independent σ p1 p2 c1 c2 es1 es2 cs :
  heap_at σ p1 c1 es1 -> heap_at σ p2 c2 es2 ->
  exists r σ' σ'',
    CombinarMonticulos p1 p2 σ = Some (r, σ') /\
    run_calls r cs σ' = Some (tt, σ'') /\
    preserved σ σ'' /\
    heap_at σ'' p1 c1 es1 /\ heap_at σ'' p2 c2 es2.
Proof.
  intros Hat1 Hat2.
  destruct (Insert_all_perm (merged_compare c1 es1) (es1 ++ es2) [])
    as (es & Hall & _).
  destruct (CombinarMonticulos_spec σ p1 p2 c1 c2 es1 es2 es Hat1 Hat2 Hall)
    as (r & σ' & Hrun & Hat & Hpriv).
  destruct (run_calls_frame _ cs σ σ' r es Hat Hpriv)
    as (σ'' & es' & Hcalls & _ & (Hpres & _) & _).
  exists r, σ', σ''. split; [exact Hrun|]. split; [exact Hcalls|].
  split; [exact Hpres|]. split; eapply heap_at_preserved; eassumption.
Qed.

(** For [n] in range, [EnesimoMaximo] returns what the last of [n]
    successive calls of [Remove] on the heap itself would return. *)
Theorem EnesimoMaximo_is_nth_Remove σ m cmp es (n : Z) :
  heap_at σ m cmp es -> 1 <= n <= Z.of_nat (length es) ->
  exists v σ1 rs σ2,
    EnesimoMaximo m n σ = Some ((v, None), σ1) /\
    Remove_times m (Z.to_nat n) σ = Some (rs, σ2) /\
    last rs = Some (v, None).
Proof.
  intros Hat Hn.
  destruct (drain_elems_Some cmp (Z.to_nat n) es ltac:(lia))
    as (out & rest & Hdr & Hlen & _).
  destruct (EnesimoMaximo_valid σ m cmp es n out rest Hat Hn Hdr) as (σ1 & Hrun & _).
  destruct (Remove_times_spec cmp (Z.to_nat n) σ m es out rest Hat Hdr)
    as (σ2 & Hrem & _).
  eexists _, σ1, _, σ2. split; [exact Hrun|]. split; [exact Hrem|].
  rewrite fmap_last. destruct (last out) eqn:Hlast; [reflexivity|].
  apply last_None in Hlast. subst out. simpl in Hlen. lia.
Qed.

(** On a heap in heap order under a valid comparator, a larger rank gives
    an element of lower or equal priority: for [n1 <= n2] in range, the
    results [v1] and [v2] of [EnesimoMaximo] satisfy [compare(v1, v2) <= 0]. *)
Theorem EnesimoMaximo_monotone cmp σ m es (n1 n2 : Z) :
  valid_comparator cmp -> heap_at σ m cmp es -> heap_ordered cmp es ->
  1 <= n1 -> n1 <= n2 -> n2 <= Z.of_nat (length es) ->
  exists v1 v2 σ1 σ2,
    EnesimoMaximo m n1 σ = Some ((v1, None), σ1) /\
    EnesimoMaximo m n2 σ = Some ((v2, None), σ2) /\
    cmp v1 v2 <= 0.
Proof.
  intros Hcmp Hat Hord H1 H12 H2.
  destruct (drain_elems_Some cmp (Z.to_nat n1) es ltac:(lia))
    as (o1 & r1 & Hd1 & Hl1 & Hp1).
  assert (length r1 = length es - Z.to_nat n1)%nat as Hlr.
  { apply Permutation_length in Hp1. rewrite length_app in Hp1. lia. }
  destruct (drain_elems_Some cmp (Z.to_nat n2 - Z.to_nat n1) r1 ltac:(lia))
    as (o2 & r2 & Hd2 & Hl2 & _).
  pose proof (drain_elems_app cmp _ _ _ _ _ _ _ Hd1 Hd2) as Hd12.
  replace (Z.to_nat n1 + (Z.to_nat n2 - Z.to_nat n1))%nat with (Z.to_nat n2)
    in Hd12 by lia.
  destruct (EnesimoMaximo_valid σ m cmp es n1 o1 r1 Hat ltac:(lia) Hd1)
    as (σ1 & Hrun1 & _).
  destruct (EnesimoMaximo_valid σ m cmp es n2 (o1 ++ o2) r2 Hat ltac:(lia) Hd12)
    as (σ2 & Hrun2 & _).
  exists (default zero (last o1)), (default zero (last (o1 ++ o2))), σ1, σ2.
  split; [exact Hrun1|]. split; [exact Hrun2|].
  destruct (drain_elems_rank cmp Hcmp _ _ _ _ Hord Hd12)
    as (sorted & _ & Hsorted & Htake).
  rewrite <- (take_drop (Z.to_nat n2) sorted), Htake in Hsorted.
  apply StronglySorted_app_1_l in Hsorted.
  destruct (last o1) as [a|] eqn:Ha.
  2: { apply last_None in Ha. subst o1. simpl in Hl1. lia. }
  rewrite last_app. destruct (last o2) as [b|] eqn:Hb; cbn [default].
  - apply (StronglySorted_app_1_elem_of _ o1 o2 a b Hsorted);
      eapply last_Some_elem_of; eassumption.
  - rewrite Ha. cbn [default]. now apply cmp_refl.
Qed.

(** [EnesimoMaximo] with [n = 1] on a non-empty heap returns
    [elements[0]], whatever the comparator, and the heap keeps all its
    elements in place. *)
Theorem EnesimoMaximo_first σ m cmp e es :
  heap_at σ m cmp (e :: es) ->
  exists σ', EnesimoMaximo m 1 σ = Some ((e, None), σ') /\
             heap_at σ' m cmp (e :: es).
Proof.
  intros Hat.
  destruct (Remove_elems_perm cmp e es) as (es' & Hrm & _).
  destruct (EnesimoMaximo_valid σ m cmp (e :: es) 1 [e] es' Hat) as (σ' & Hrun & Hpres).
  - simpl. lia.
  - change (Z.to_nat 1) with 1%nat. cbn [drain_elems]. now rewrite Hrm.
  - exists σ'. split; [exact Hrun|]. eapply heap_at_preserved; eassumption.
Qed.

Lemma drains_sorted_unique (ctor : M T loc) cmp xs ys fuel σx σy :
  valid_comparator cmp ->
  (forall a b, cmp a b <= 0 -> cmp b a <= 0 -> a = b) ->
  xs ≡ₚ ys -> (length xs <= fuel)%nat ->
  (forall σ0, exists m σ1, ctor σ0 = Some (m, σ1) /\ heap_at σ1 m cmp []) ->
  exists out, drains_to ctor xs fuel σx out /\ drains_to ctor ys fuel σy out.
Proof.
  intros Hcmp Hanti Hperm Hfuel Hctor.
  destruct (drains_sorted_ctor ctor cmp xs fuel σx Hcmp Hfuel (Hctor σx))
    as (m & σ1 & σ2 & out & σ3 & H1 & H2 & H3 & _ & Hpx & Hsx).
  destruct (drains_sorted_ctor ctor cmp ys fuel σy Hcmp
              ltac:(rewrite <- (Permutation_length Hperm); exact Hfuel) (Hctor σy))
    as (m' & σ1' & σ2' & out' & σ3' & H1' & H2' & H3' & _ & Hpy & Hsy).
  assert (out = out') as <-.
  { apply (StronglySorted_unique_strong (fun a b => cmp a b <= 0)); try assumption.
    - intros a b _ _. apply Hanti.
    - now rewrite Hpx, Hpy. }
  exists out. split; [now exists m, σ1, σ2, σ3|now exists m', σ1', σ2', σ3'].
Qed.

(** What comes out of a heap does not depend on the order of insertion:
    two arrangements of the same elements, inserted one at a time into
    new heaps of the same kind, come back in the same sequence. *)
Theorem extraction_ignores_insertion_order xs ys (fuel : nat) σx σy :
  xs ≡ₚ ys -> (length xs <= fuel)%nat ->
  (exists out, drains_to NewMinHeap xs fuel σx out /\
               drains_to NewMinHeap ys fuel σy out) /\
  (exists out, drains_to NewMaxHeap xs fuel σx out /\
               drains_to NewMaxHeap ys fuel σy out).
Proof.
  intros Hperm Hfuel. split.
  - apply (drains_sorted_unique _ Compare); try assumption.
    + apply Compare_valid.
    + intros a b Hab Hba. apply Compare_le in Hab, Hba. now apply less_total.
    + intros σ0. destruct (NewMinHeap_spec σ0) as (m & σ1 & H1 & H2 & _). eauto.
  - apply (drains_sorted_unique _ (fun a b => Compare b a)); try assumption.
    + apply Compare_flip_valid.
    + intros a b Hab Hba. apply Compare_le in Hab, Hba. now apply less_total.
    + intros σ0. destruct (NewMaxHeap_spec σ0) as (m & σ1 & H1 & H2 & _). eauto.
Qed.

End derived.

(** * The further properties at work on the concrete store *)

Lemma demo_apart : apart demo_store 1%positive 2%positive.
Proof.
  split; [discriminate|]. intros h1 h2 H1 H2.
  vm_compute in H1, H2. injection H1 as <-. injection H2 as <-. discriminate.
Qed.

Lemma demo_dominates : Forall (fun y => max_compare 9 y <= 0) [7; 5; 3].
Proof. repeat constructor; vm_compute; discriminate. Qed.

Lemma Insert_effect_witness :
  heap_at demo_store 1%positive max_compare [7; 5; 3] /\
  exists σ' es',
    Insert (rt := doubling) 1%positive 9 demo_store = Some (tt, σ') /\
    heap_at σ' 1%positive max_compare es' /\
    es' ≡ₚ 9 :: [7; 5; 3] /\
    Size 1%positive σ' = Some (4%nat, σ').
Proof.
  split; [exact demo_heap_1|].
  exact (Insert_effect (rt := doubling) demo_store 1%positive max_compare
           [7; 5; 3] 9 demo_heap_1).
Defined.

Lemma Remove_effect_witness :
  heap_at demo_store 1%positive max_compare [7; 5; 3] /\
  exists σ' es',
    Remove 1%positive demo_store = Some ((7, None), σ') /\
    heap_at σ' 1%positive max_compare es' /\
    es' ≡ₚ [5; 3] /\
    Size 1%positive σ' = Some (2%nat, σ').
Proof.
  split; [exact demo_heap_1|].
  exact (Remove_effect demo_store 1%positive max_compare 7 [5; 3] demo_heap_1).
Defined.

Lemma Remove_returns_first_witness :
  valid_comparator max_compare /\
  heap_at demo_store 1%positive max_compare [7; 5; 3] /\
  heap_ordered max_compare [7; 5; 3] /\
  exists σ' es',
    Remove 1%positive demo_store = Some ((7, None), σ') /\
    heap_at σ' 1%positive max_compare es' /\
    Forall (fun x => max_compare 7 x <= 0) es' /\
    heap_ordered max_compare es'.
Proof.
  split; [exact Compare_flip_valid|]. split; [exact demo_heap_1|].
  split; [exact demo_ordered_1|].
  exact (Remove_returns_first max_compare demo_store 1%positive 7 [5; 3]
           Compare_flip_valid demo_heap_1 demo_ordered_1).
Defined.

Lemma heap_holds_only_inserted_witness :
  heap_at demo_store 1%positive max_compare [7; 5; 3] /\
  exists σ' es',
    run_calls (H0 := doubling) 1%positive [CallInsert 4; CallRemove] demo_store
    = Some (tt, σ') /\
    heap_at σ' 1%positive max_compare es' /\
    es' ⊆+ [7; 5; 3] ++ inserted [CallInsert 4; CallRemove].
Proof.
  split; [exact demo_heap_1|].
  exact (heap_holds_only_inserted (rt := doubling) demo_store 1%positive max_compare
           [7; 5; 3] [CallInsert 4; CallRemove] demo_heap_1).
Defined.

Lemma heaps_apart_stay_apart_witness :
  heap_at demo_store 1%positive max_compare [7; 5; 3] /\
  heap_at demo_store 2%positive Compare [2; 4; 6] /\
  apart demo_store 1%positive 2%positive /\
  exists σ' es1',
    run_calls (H0 := doubling) 1%positive [CallInsert 4; CallInsert 8; CallRemove]
      demo_store = Some (tt, σ') /\
    heap_at σ' 1%positive max_compare es1' /\
    heap_at σ' 2%positive Compare [2; 4; 6] /\
    structs σ' !! 2%positive = structs demo_store !! 2%positive /\
    apart σ' 1%positive 2%positive.
Proof.
  split; [exact demo_heap_1|]. split; [exact demo_heap_2|]. split; [exact demo_apart|].
  exact (heaps_apart_stay_apart (rt := doubling) demo_store 1%positive 2%positive
           max_compare Compare [7; 5; 3] [2; 4; 6]
           [CallInsert 4; CallInsert 8; CallRemove]
           demo_heap_1 demo_heap_2 demo_apart).
Defined.


Lemma upHeap_bounds_witness :
  heap_at demo_store 1%positive max_compare [7; 5; 3] /\
  upHeap 1%positive 7 demo_store = None.
Proof.
  split; [exact demo_heap_1|].
  apply (proj1 (upHeap_bounds demo_store 1%positive max_compare [7; 5; 3] 7
                  demo_heap_1)).
  simpl. lia.
Defined.

Lemma Insert_first_then_Remove_witness :
  heap_at demo_store 1%positive max_compare [7; 5; 3] /\
  Forall (fun y => max_compare 9 y <= 0) [7; 5; 3] /\
  exists σ1 es1 σ2,
    Insert (rt := doubling) 1%positive 9 demo_store = Some (tt, σ1) /\
    heap_at σ1 1%positive max_compare es1 /\
    es1 !! 0%nat = Some 9 /\
    Remove 1%positive σ1 = Some ((9, None), σ2).
Proof.
  split; [exact demo_heap_1|]. split; [exact demo_dominates|].
  exact (Insert_first_then_Remove (rt := doubling) demo_store 1%positive max_compare
           [7; 5; 3] 9 demo_heap_1 demo_dominates).
Defined.

Lemma NuevoMonticuloMaxDesdeArreglo_any_witness :
  slice_at demo_store (Slice 3%positive 0 6) [3; 1; 6; 5; 2; 4] /\
  exists r σ' es,
    NuevoMonticuloMaxDesdeArreglo (rt := doubling) (Slice 3%positive 0 6) demo_store
    = Some (r, σ') /\
    structs demo_store !! r = None /\
    heap_at σ' r (fun a b => Compare b a) es /\
    es ≡ₚ [3; 1; 6; 5; 2; 4] /\
    Size r σ' = Some (6%nat, σ') /\
    heap_ordered (fun a b => Compare b a) es /\
    (forall e x, es !! 0%nat = Some e -> x ∈ [3; 1; 6; 5; 2; 4] -> less e x = false) /\
    preserved demo_store σ' /\
    slice_at σ' (Slice 3%positive 0 6) [3; 1; 6; 5; 2; 4].
Proof.
  split; [exact demo_slice|].
  exact (NuevoMonticuloMaxDesdeArreglo_any (rt := doubling) demo_store
           (Slice 3%positive 0 6) [3; 1; 6; 5; 2; 4] demo_slice).
Defined.

Lemma CombinarMonticulos_ordered_witness :
  heap_at demo_store 1%positive max_compare [7; 5; 3] /\
  heap_at demo_store 2%positive Compare [2; 4; 6] /\
  exists r σ' cmp es,
    CombinarMonticulos (rt := doubling) 1%positive 2%positive demo_store
    = Some (r, σ') /\
    heap_at σ' r cmp es /\
    (cmp = Compare \/ cmp = fun a b => Compare b a) /\
    heap_ordered cmp es /\
    (forall a b, es !! 0%nat = Some a -> es !! 1%nat = Some b -> cmp a b <= 0).
Proof.
  split; [exact demo_heap_1|]. split; [exact demo_heap_2|].
  exact (CombinarMonticulos_ordered (rt := doubling) demo_store 1%positive 2%positive
           max_compare Compare [7; 5; 3] [2; 4; 6] demo_heap_1 demo_heap_2).
Defined.

Lemma CombinarMonticulos_result_independent_witness :
  heap_at demo_store 1%positive max_compare [7; 5; 3] /\
  heap_at demo_store 2%positive Compare [2; 4; 6] /\
  exists r σ' σ'',
    CombinarMonticulos (rt := doubling) 1%positive 2%positive demo_store
    = Some (r, σ') /\
    run_calls (H0 := doubling) r [CallRemove; CallInsert 1] σ' = Some (tt, σ'') /\
    preserved demo_store σ'' /\
    heap_at σ'' 1%positive max_compare [7; 5; 3] /\
    heap_at σ'' 2%positive Compare [2; 4; 6].
Proof.
  split; [exact demo_heap_1|]. split; [exact demo_heap_2|].
  exact (CombinarMonticulos_result_independent (rt := doubling) demo_store
           1%positive 2%positive max_compare Compare [7; 5; 3] [2; 4; 6]
           [CallRemove; CallInsert 1] demo_heap_1 demo_heap_2).
Defined.

Lemma EnesimoMaximo_is_nth_Remove_witness :
  heap_at demo_store 1%positive max_compare [7; 5; 3] /\
  1 <= 2 <= Z.of_nat (length [7; 5; 3]) /\
  exists v σ1 rs σ2,
    EnesimoMaximo 1%positive 2 demo_store = Some ((v, None), σ1) /\
    Remove_times 1%positive (Z.to_nat 2) demo_store = Some (rs, σ2) /\
    last rs = Some (v, None).
Proof.
  split; [exact demo_heap_1|]. split; [simpl; lia|].
  apply (EnesimoMaximo_is_nth_Remove demo_store 1%positive max_compare [7; 5; 3] 2
           demo_heap_1).
  simpl. lia.
Defined.

Lemma EnesimoMaximo_monotone_witness :
  valid_comparator max_compare /\
  heap_at demo_store 1%positive max_compare [7; 5; 3] /\
  heap_ordered max_compare [7; 5; 3] /\
  exists v1 v2 σ1 σ2,
    EnesimoMaximo 1%positive 1 demo_store = Some ((v1, None), σ1) /\
    EnesimoMaximo 1%positive 3 demo_store = Some ((v2, None), σ2) /\
    max_compare v1 v2 <= 0.
Proof.
  split; [exact Compare_flip_valid|]. split; [exact demo_heap_1|].
  split; [exact demo_ordered_1|].
  apply (EnesimoMaximo_monotone max_compare demo_store 1%positive [7; 5; 3] 1 3
           Compare_flip_valid demo_heap_1 demo_ordered_1); simpl; lia.
Defined.

Lemma EnesimoMaximo_first_witness :
  heap_at demo_store 1%positive max_compare [7; 5; 3] /\
  exists σ', EnesimoMaximo 1%positive 1 demo_store = Some ((7, None), σ') /\
             heap_at σ' 1%positive max_compare [7; 5; 3].
Proof.
  split; [exact demo_heap_1|].
  exact (EnesimoMaximo_first demo_store 1%positive max_compare 7 [5; 3] demo_heap_1).
Defined.

Lemma extraction_ignores_insertion_order_witness :
  [3; 1; 2] ≡ₚ [2; 3; 1] /\ (length [3; 1; 2] <= 3)%nat /\
  (exists out, drains_to (H0 := doubling) NewMinHeap [3; 1; 2] 3 (Mem ∅ ∅) out /\
               drains_to (H0 := doubling) NewMinHeap [2; 3; 1] 3 demo_store out) /\
  (exists out, drains_to (H0 := doubling) NewMaxHeap [3; 1; 2] 3 (Mem ∅ ∅) out /\
               drains_to (H0 := doubling) NewMaxHeap [2; 3; 1] 3 demo_store out).
Proof.
  assert ([3; 1; 2] ≡ₚ [2; 3; 1]) as Hperm
    by (symmetry; apply (Permutation_cons_append [3; 1] 2)).
  split; [exact Hperm|]. split; [simpl; lia|].
  apply (extraction_ignores_insertion_order (rt := doubling) [3; 1; 2] [2; 3; 1] 3
           (Mem ∅ ∅) demo_store Hperm).
  simpl. lia.
Defined.
